(** * Mel filter bank (src/melFB.cpp): shallow embedding and properties

    The class [MelFb] builds a bank of triangular weighting filters whose
    centre frequencies are equidistant on the mel axis and applies it to
    the frames of a spectrogram.

    Number model.  [Fw32f] values are modelled by the real numbers of the
    Standard Library: [+ - * /] are the exact operations, [logf] is [ln],
    [powf] is [Rpower], and [floor], [ceil] and [roundf] are the exact
    integer roundings.  Statements that the specification makes "within
    floating-point tolerance" are therefore stated as equalities of the
    exact values.  The [int] variables of the source are integers of [Z];
    the shift [1 << fftOrder] is wrapped to 32 bits, and the conversion
    [(float)fftSize] rounds to the 24 bits of a binary32 significand.

    The exact values stand for the stored ones up to rounding.  Which of
    two neighbouring bins a quotient is rounded to when it lies at or next
    to a tie, and whether a running sum stays on its side of a bound, is
    decided by the rounding of the binary32 operations and of the library
    functions [log] and [pow]: the properties below assert neither. *)

From Stdlib Require Import Reals Lra Lia ZArith List String Bool.
Import ListNotations.

Open Scope R_scope.

(** ** Numbers *)

Abbreviation Fw32f := R (only parsing).

(** [#define SAMPLE_RATE 8000.0f] *)
Definition SAMPLE_RATE : Fw32f := 8000.

(** [logf] and [powf].  At an argument that is not positive the logarithm
    of the program is infinite or not a number, while [ln] is 0 there; the
    properties of the frequency maps and of the band boundaries are stated
    for frequencies above -700 Hz, where the argument [1 + f/700] of the
    logarithm is positive. *)
Definition logf (x : Fw32f) : Fw32f := ln x.
Definition powf (b e : Fw32f) : Fw32f := Rpower b e.

(** [floor] and [ceil] of <cmath>; the integer they denote is kept as a
    [Z] and injected with [IZR] where the source stores it in a float. *)
Definition floor (x : Fw32f) : Z := Zfloor x.
Definition ceil (x : Fw32f) : Z := Zceil x.

(** [round] of <cmath>: nearest integer, halfway cases away from zero. *)
Definition round_int (x : Fw32f) : Z :=
  if Rle_dec 0 x then Zfloor (x + / 2) else Zceil (x - / 2).

Definition roundf (x : Fw32f) : Fw32f := IZR (round_int x).

(** Two's complement wrap-around of a 32-bit [int]. *)
Definition wrap32 (z : Z) : Z := ((z + 2 ^ 31) mod 2 ^ 32 - 2 ^ 31)%Z.

(** [(float)n] for an [int] [n]: the nearest number with a significand of
    24 bits, a halfway case going to the even significand.  An integer of
    absolute value below [2^24] is kept as it is. *)
Definition round24 (n : Z) : Z :=
  let a := Z.abs n in
  if (a <? 2 ^ 24)%Z then n
  else
    let e := (Z.log2 a - 23)%Z in
    let q := (a / 2 ^ e)%Z in
    let r := (a mod 2 ^ e)%Z in
    let half := (2 ^ (e - 1))%Z in
    let m := if (r <? half)%Z then q
             else if (half <? r)%Z then (q + 1)%Z
             else if Z.even q then q else (q + 1)%Z in
    (Z.sgn n * (m * 2 ^ e))%Z.

Definition float_of_int (n : Z) : Fw32f := IZR (round24 n).

(** ** Helper functions of the class *)

(** [2595.0f * (logf(1.0f + linFreq / 700.0f) / logf(10.0f))] *)
Definition linToMel (linFreq : Fw32f) : Fw32f :=
  2595 * (logf (1 + linFreq / 700) / logf 10).

(** [700.0f * (powf(10.0f, (melFreq / 2595.0f)) - 1.0f)] *)
Definition melToLin (melFreq : Fw32f) : Fw32f :=
  700 * (powf 10 (melFreq / 2595) - 1).

(** ** Arrays *)

(** [fwsMalloc_32f(n)] and [new Fw32f[n]]: a block of [n] cells.  The cells
    are written before they are read, their initial content is taken as 0. *)
Definition fwsMalloc_32f (n : Z) : list Fw32f := repeat 0 (Z.to_nat n).

(** [a[i] = v].  Every store of [calcMelFB] is guarded so that [i] lies
    inside the block; outside the block the list is left as it is. *)
Fixpoint store (a : list Fw32f) (i : nat) (v : Fw32f) : list Fw32f :=
  match a, i with
  | [], _ => []
  | _ :: t, O => v :: t
  | h :: t, S j => h :: store t j v
  end.

(** [a[i]] as an r-value inside [calcMelFB]. *)
Definition load (a : list Fw32f) (i : nat) : Fw32f := nth i a 0.

(** ** The object *)

Record MelFb : Type := mkMelFb {
  numFilterBanks : Z;
  fbSize : Z;
  hiCut : Fw32f;
  loCut : Fw32f;
  fLo : list Fw32f;
  fHi : list Fw32f;
  fbank : list (list Fw32f)
}.

(** ** calcMelFB: band boundaries *)

(** [Fw32f binSize = SAMPLE_RATE/(fbSize*2.0f-1);] *)
Definition binSize (fbSize : Z) : Fw32f := SAMPLE_RATE / (IZR fbSize * 2 - 1).

(** [delta = (linToMel(hiCut) - linToMel(loCut)) / (numFilterBanks + 1)] *)
Definition melDelta (numFilterBanks : Z) (loCut hiCut : Fw32f) : Fw32f :=
  (linToMel hiCut - linToMel loCut) / IZR (numFilterBanks + 1).

(** The variables the first loop of [calcMelFB] works on. *)
Record edges : Type := mkEdges {
  melCenter : Fw32f;
  fCenter : list Fw32f;
  eLo : list Fw32f;
  eHi : list Fw32f
}.

(** Body of [for (int i=0; i<numFilterBanks; i++)], lines 96-108. *)
Definition edges_step (n : nat) (bs delta : Fw32f) (e : edges) (i : nat) : edges :=
  let mc := melCenter e + delta in
  let ctr := store (fCenter e) i (roundf (melToLin mc / bs)) in
  let hi := if (0 <? i)%nat then store (eHi e) (i - 1) (load ctr i) else eHi e in
  let lo := if (i <? n - 1)%nat then store (eLo e) (i + 1) (load ctr i) else eLo e in
  mkEdges mc ctr lo hi.

(** Lines 79-109: allocation, [fLo[0]], the loop and [fHi[numFilterBanks-1]]. *)
Definition calcEdges (numFilterBanks fbSize : Z) (loCut hiCut : Fw32f) : edges :=
  let n := Z.to_nat numFilterBanks in
  let bs := binSize fbSize in
  let delta := melDelta numFilterBanks loCut hiCut in
  let e0 := mkEdges (linToMel loCut)
                    (fwsMalloc_32f numFilterBanks)
                    (store (fwsMalloc_32f numFilterBanks) 0 (roundf (loCut / bs)))
                    (fwsMalloc_32f numFilterBanks) in
  let e := fold_left (edges_step n bs delta) (seq 0 n) e0 in
  mkEdges (melCenter e) (fCenter e) (eLo e) (store (eHi e) (n - 1) (hiCut / bs)).

(** ** calcMelFB: triangular weights *)

(** The comparisons [a < b] and [a <= b] of the source, as booleans. *)
Definition flt (a b : Fw32f) : bool := if Rlt_dec a b then true else false.
Definition fle (a b : Fw32f) : bool := if Rle_dec a b then true else false.

(** One bin of a row, lines 117-126: the value stored in [fbank[band][k]]
    and the accumulator [x] afterwards. *)
Definition bin_step (lo c hi : Fw32f) (k : Z) (x : Fw32f) : Fw32f * Fw32f :=
  if flt lo (IZR k) && fle (IZR k) c then (x, x + 1 / (c - lo))
  else if flt c (IZR k) && fle (IZR k) hi then (x, x - 1 / (hi - c))
  else (0, x).

(** The loop [for (int k=0; k<fbSize; k++)], lines 115-127, from bin [k] on
    with [todo] bins left.  The bins are written in increasing order, so the
    row is produced as a list; the final accumulator is returned with it. *)
Fixpoint calcRow (lo c hi : Fw32f) (k : Z) (todo : nat) (x : Fw32f)
  : list Fw32f * Fw32f :=
  match todo with
  | O => ([], x)
  | S todo' =>
      let (w, x1) := bin_step lo c hi k x in
      let (row, x2) := calcRow lo c hi (k + 1) todo' x1 in
      (w :: row, x2)
  end.

(** Body of [for (int band=0; band<numFilterBanks; band++)], lines 113-129:
    the rows are filled in increasing order of [band], and [x] is reset to 0
    at the end of each round. *)
Definition weights_step (fbSize : Z) (e : edges)
  (st : list (list Fw32f) * Fw32f) (band : nat) : list (list Fw32f) * Fw32f :=
  let (rows, x) := st in
  let (row, _) := calcRow (load (eLo e) band) (load (fCenter e) band)
                          (load (eHi e) band) 0 (Z.to_nat fbSize) x in
  (rows ++ [row], 0).

Definition calcWeights (numFilterBanks fbSize : Z) (e : edges) : list (list Fw32f) :=
  fst (fold_left (weights_step fbSize e) (seq 0 (Z.to_nat numFilterBanks)) ([], 0)).

(** ** Construction *)

(** What a call of the constructor ends in: the object, one of the two
    [throw "..."] statements (the specification's InvalidConfig), the
    exception of an array [new] with a negative length, or behaviour the
    language leaves undefined. *)
Inductive construction : Type :=
| Built (fb : MelFb)
| InvalidConfig (what : string)
| bad_array_new_length
| Undefined.

Definition calcMelFB (numFilterBanks fbSize : Z) (loCut hiCut : Fw32f) : construction :=
  if (numFilterBanks <? 0)%Z then bad_array_new_length      (* new Fw32f *[numFilterBanks] *)
  else if (numFilterBanks =? 0)%Z then Undefined            (* fLo[0] = ... in an empty block *)
  else if (fbSize <? 0)%Z then bad_array_new_length         (* new Fw32f[fbSize] *)
  else
    let e := calcEdges numFilterBanks fbSize loCut hiCut in
    Built (mkMelFb numFilterBanks fbSize hiCut loCut (eLo e) (eHi e)
                   (calcWeights numFilterBanks fbSize e)).

(** [(int)ceil(logf((float)fftSize)/logf(2.0f))]: the size is converted
    to [float] first, the quotient of the two logarithms is the exact one.
    The logarithm of a non-positive number is infinite or not a number,
    and its conversion to [int] is undefined. *)
Definition fftOrder (fftSize : Z) : option Z :=
  if (0 <? fftSize)%Z then Some (ceil (logf (float_of_int fftSize) / logf 2)) else None.

(** [(1 << fftOrder)/2] on 32-bit [int]. *)
Definition fbSize_of (fftOrder : Z) : Z := Z.quot (wrap32 (Z.shiftl 1 fftOrder)) 2.

(** [MelFb::MelFb(int fftSize, int numBanks, int locut, int hicut)] *)
Definition MelFb_new (fftSize numBanks locut hicut : Z) : construction :=
  match fftOrder fftSize with
  | None => Undefined
  | Some order =>
      if flt SAMPLE_RATE (IZR hicut) then InvalidConfig "HiCut Parameter too high"
      else if (numBanks =? 0)%Z then InvalidConfig "Number of Filterbanks is zero"
      else calcMelFB numBanks (fbSize_of order) (IZR locut) (IZR hicut)
  end.

(** The local array [fCenter] of [calcMelFB] is freed at its end; the
    properties that mention the centre bins read it here. *)
Definition centerBins (fb : MelFb) : list Fw32f :=
  fCenter (calcEdges (numFilterBanks fb) (fbSize fb) (loCut fb) (hiCut fb)).

(** ** Application *)

(** The part of [Stft] that [applyMelFB] reads. *)
Record Stft : Type := mkStft {
  NoOfWindows : Z;
  spectrogramm : list (list Fw32f)
}.

(** Reads and writes of [applyMelFB] are checked: [None] is an access
    outside the block. *)
Definition bind {A B : Type} (m : option A) (f : A -> option B) : option B :=
  match m with Some a => f a | None => None end.

Notation "x <- m ;; k" := (bind m (fun x => k))
  (at level 61, m at next level, right associativity).

Definition rd {A : Type} (a : list A) (i : Z) : option A :=
  if (i <? 0)%Z then None else nth_error a (Z.to_nat i).

Fixpoint wr {A : Type} (a : list A) (i : nat) (v : A) : option (list A) :=
  match a, i with
  | [], _ => None
  | _ :: t, O => Some (v :: t)
  | h :: t, S j => t' <- wr t j v ;; Some (h :: t')
  end.

Definition len (a : list Fw32f) : Z := Z.of_nat (List.length a).

(** The Framewave signal functions.  As in the library, a length that is
    not positive makes the call return a size error without touching its
    operands; the source ignores the status. *)
Definition fwsZero_32f (dst : list Fw32f) (n : Z) : option (list Fw32f) :=
  if (n <=? 0)%Z then Some dst
  else if (n <=? len dst)%Z
       then Some (repeat 0 (Z.to_nat n) ++ skipn (Z.to_nat n) dst)
       else None.

(** [fwsCopy_32f(&src[off], dst, n)] *)
Definition fwsCopy_32f (src : list Fw32f) (off : Z) (dst : list Fw32f) (n : Z)
  : option (list Fw32f) :=
  if (n <=? 0)%Z then Some dst
  else if ((0 <=? off) && (off + n <=? len src) && (n <=? len dst))%Z
       then Some (firstn (Z.to_nat n) (skipn (Z.to_nat off) src)
                  ++ skipn (Z.to_nat n) dst)
       else None.

Fixpoint mul_pointwise (a b : list Fw32f) : list Fw32f :=
  match a, b with
  | x :: a', y :: b' => y * x :: mul_pointwise a' b'
  | _, _ => []
  end.

(** [fwsMul_32f_I(src, srcdst, n)]: [srcdst[i] = srcdst[i] * src[i]]. *)
Definition fwsMul_32f_I (src srcdst : list Fw32f) (n : Z) : option (list Fw32f) :=
  if (n <=? 0)%Z then Some srcdst
  else if ((n <=? len src) && (n <=? len srcdst))%Z
       then Some (mul_pointwise (firstn (Z.to_nat n) src) (firstn (Z.to_nat n) srcdst)
                  ++ skipn (Z.to_nat n) srcdst)
       else None.

Definition sum_list (a : list Fw32f) : Fw32f := fold_right Rplus 0 a.

(** [fwsSum_32f(src, n, &row[band], hint)]: the cell is written only for a
    positive length. *)
Definition fwsSum_32f (src : list Fw32f) (n : Z) (row : list Fw32f) (band : nat)
  : option (list Fw32f) :=
  if (n <=? 0)%Z then Some row
  else if (n <=? len src)%Z
       then wr row band (sum_list (firstn (Z.to_nat n) src))
       else None.

(** What [applyMelFB] works on: the object, the two scratch blocks and the
    caller's output matrix. *)
Record apply_state : Type := mkApply {
  self : MelFb;
  filterSparse : list Fw32f;
  frameSparse : list Fw32f;
  output : list (list Fw32f)
}.

(** Lines 170-182, one round of the inner loop. *)
Definition apply_band (stft : Stft) (maxFilterSize : Z) (window band : nat)
  (s : apply_state) : option apply_state :=
  let fb := self s in
  hi <- rd (fHi fb) (Z.of_nat band) ;;
  lo <- rd (fLo fb) (Z.of_nat band) ;;
  let filterSize := (ceil hi - floor lo)%Z in
  let loF := floor lo in
  filter0 <- fwsZero_32f (filterSparse s) maxFilterSize ;;
  frame0 <- fwsZero_32f (frameSparse s) maxFilterSize ;;
  spectrum <- rd (spectrogramm stft) (Z.of_nat window) ;;
  frame1 <- fwsCopy_32f spectrum loF frame0 filterSize ;;
  weights <- rd (fbank fb) (Z.of_nat band) ;;
  filter1 <- fwsCopy_32f weights loF filter0 filterSize ;;
  filter2 <- fwsMul_32f_I frame1 filter1 filterSize ;;
  outrow <- rd (output s) (Z.of_nat window) ;;
  outrow' <- fwsSum_32f filter2 filterSize outrow band ;;
  out' <- wr (output s) window outrow' ;;
  Some (mkApply fb filter2 frame1 out').

(** A counted [for] loop over the option monad. *)
Fixpoint for_loop {S : Type} (body : nat -> S -> option S) (idx : list nat) (s : S)
  : option S :=
  match idx with
  | [] => Some s
  | i :: rest => s' <- body i s ;; for_loop body rest s'
  end.

(** [void MelFb::applyMelFB(Fw32f **output, const Stft& stft)]: the object
    and the output matrix after the call. *)
Definition applyMelFB (fb : MelFb) (out : list (list Fw32f)) (stft : Stft)
  : option (MelFb * list (list Fw32f)) :=
  hiLast <- rd (fHi fb) (numFilterBanks fb - 1) ;;
  loLast <- rd (fLo fb) (numFilterBanks fb - 1) ;;
  let maxFilterSize := (ceil hiLast - floor loLast)%Z in
  let s0 := mkApply fb (fwsMalloc_32f maxFilterSize) (fwsMalloc_32f maxFilterSize) out in
  s <- for_loop (fun window =>
         for_loop (apply_band stft maxFilterSize window)
                  (seq 0 (Z.to_nat (numFilterBanks fb))))
       (seq 0 (Z.to_nat (NoOfWindows stft))) s0 ;;
  Some (self s, output s).

(** The non-sparse way of the comment at lines 139-156 and of the
    specification: the first [fbSize] values of the frame times the whole
    weight row, summed. *)
Definition dense_band (fb : MelFb) (spectrum weights : list Fw32f) : Fw32f :=
  sum_list (mul_pointwise (firstn (Z.to_nat (fbSize fb)) spectrum)
                          (firstn (Z.to_nat (fbSize fb)) weights)).

(** ** Closed forms used to state the properties *)

(** The centre bin of band [i]: the mel value [melLo] advanced [i+1] times
    by [delta], mapped back to a frequency and rounded to a bin. *)
Definition center_at (bs delta melLo : Fw32f) (i : nat) : Fw32f :=
  roundf (melToLin (melLo + (INR i + 1) * delta) / bs).

(** The variables of [calcMelFB] when its first loop is entered, and after
    [k] rounds of it. *)
Definition edges_init (n : nat) (melLo lo0 : Fw32f) : edges :=
  mkEdges melLo (repeat 0 n) (store (repeat 0 n) 0 lo0) (repeat 0 n).

Definition edges_after (n : nat) (bs delta melLo lo0 : Fw32f) (k : nat) : edges :=
  fold_left (edges_step n bs delta) (seq 0 k) (edges_init n melLo lo0).

(** Invariant of the first loop after [k] rounds. *)
Record edges_inv (n : nat) (bs delta melLo lo0 : Fw32f) (k : nat) (e : edges) : Prop := {
  inv_mel : melCenter e = melLo + INR k * delta;
  inv_len_c : List.length (fCenter e) = n;
  inv_len_lo : List.length (eLo e) = n;
  inv_len_hi : List.length (eHi e) = n;
  inv_center : forall j, (j < k)%nat -> load (fCenter e) j = center_at bs delta melLo j;
  inv_hi : forall j, (S j < k)%nat -> load (eHi e) j = center_at bs delta melLo (S j);
  inv_lo : forall j, (j < k)%nat -> (S j < n)%nat ->
                     load (eLo e) (S j) = center_at bs delta melLo j;
  inv_lo0 : load (eLo e) 0 = lo0
}.

(** The weight row of one band, as the second loop of [calcMelFB] fills it
    from [x = 0]. *)
Definition row_of (fbSize : Z) (e : edges) (band : nat) : list Fw32f :=
  fst (calcRow (load (eLo e) band) (load (fCenter e) band) (load (eHi e) band)
               0 (Z.to_nat fbSize) 0).

(** The object [calcMelFB] leaves behind. *)
Definition built (numFilterBanks fbSize : Z) (loCut hiCut : Fw32f) : MelFb :=
  let e := calcEdges numFilterBanks fbSize loCut hiCut in
  mkMelFb numFilterBanks fbSize hiCut loCut (eLo e) (eHi e)
          (calcWeights numFilterBanks fbSize e).

(** [p] is the smallest power of two that is greater than or equal to [n]
    (the specification's "next power of two >= fftSize"). *)
Definition is_next_pow2 (n p : Z) : Prop :=
  (exists k, (0 <= k)%Z /\ p = (2 ^ k)%Z) /\
  (n <= p)%Z /\
  (forall j, (0 <= j)%Z -> (n <= 2 ^ j)%Z -> (p <= 2 ^ j)%Z).

(** ** The output matrix seen from outside [applyMelFB] *)

(** The sum that one round of the inner loop forms: spectrum times weights
    over the bins [loF, loF + filterSize). *)
Definition sparse_band (spectrum weights : list Fw32f) (loF filterSize : Z) : Fw32f :=
  sum_list (mul_pointwise
              (firstn (Z.to_nat filterSize) (skipn (Z.to_nat loF) spectrum))
              (firstn (Z.to_nat filterSize) (skipn (Z.to_nat loF) weights))).

(** What one round does to its output cell: nothing the language defines
    ([None]), no write ([Some None], empty window), or the write of a value
    that depends on the object and the spectrogram only. *)
Definition band_value (fb : MelFb) (stft : Stft) (maxFilterSize : Z) (window band : nat)
  : option (option Fw32f) :=
  hi <- nth_error (fHi fb) band ;;
  lo <- nth_error (fLo fb) band ;;
  spectrum <- nth_error (spectrogramm stft) window ;;
  weights <- nth_error (fbank fb) band ;;
  let filterSize := (ceil hi - floor lo)%Z in
  let loF := floor lo in
  if (filterSize <=? 0)%Z then Some None
  else if ((filterSize <=? maxFilterSize) && (0 <=? loF)
           && (loF + filterSize <=? len spectrum)
           && (loF + filterSize <=? len weights))%Z
       then Some (Some (sparse_band spectrum weights loF filterSize))
       else None.

Definition put_cell (o : list (list Fw32f)) (window band : nat) (ov : option Fw32f)
  : option (list (list Fw32f)) :=
  row <- nth_error o window ;;
  match ov with
  | None => Some o
  | Some v => row' <- wr row band v ;; wr o window row'
  end.

(** One round and the whole of [applyMelFB] as transformers of the output
    matrix alone. *)
Definition band_out (fb : MelFb) (stft : Stft) (maxFilterSize : Z) (window band : nat)
  (o : list (list Fw32f)) : option (list (list Fw32f)) :=
  ov <- band_value fb stft maxFilterSize window band ;;
  put_cell o window band ov.

Definition apply_out (fb : MelFb) (stft : Stft) (maxFilterSize : Z)
  (o : list (list Fw32f)) : option (list (list Fw32f)) :=
  for_loop (fun window =>
              for_loop (band_out fb stft maxFilterSize window)
                       (seq 0 (Z.to_nat (numFilterBanks fb))))
           (seq 0 (Z.to_nat (NoOfWindows stft))) o.

(** The scratch blocks keep the length they were allocated with. *)
Definition scratch_ok (fb : MelFb) (maxFilterSize : Z) (s : apply_state) : Prop :=
  self s = fb /\
  List.length (filterSparse s) = Z.to_nat maxFilterSize /\
  List.length (frameSparse s) = Z.to_nat maxFilterSize.

(** A run of the stateful code against a run on the output matrix alone. *)
Definition sim (fb : MelFb) (maxFilterSize : Z)
  (r : option apply_state) (r' : option (list (list Fw32f))) : Prop :=
  match r' with
  | None => r = None
  | Some o' => exists s', r = Some s' /\ scratch_ok fb maxFilterSize s' /\ output s' = o'
  end.

Definition cell (o : list (list Fw32f)) (i j : nat) : option Fw32f :=
  row <- nth_error o i ;; nth_error row j.

Definition same_shape (o o' : list (list Fw32f)) : Prop :=
  map (@List.length R) o = map (@List.length R) o'.

(** A transformer of the output matrix that overwrites a fixed set of
    cells with fixed values, and whose success depends on the shape of the
    matrix only. *)
Definition overwrites (T : list (list Fw32f) -> option (list (list Fw32f))) : Prop :=
  exists m : nat -> nat -> option Fw32f,
    (forall o o', T o = Some o' ->
       same_shape o o' /\
       forall i j, cell o' i j = match m i j with Some c => Some c | None => cell o i j end) /\
    (forall o1 o2, same_shape o1 o2 -> T o1 <> None -> T o2 <> None).

(** ** The worked example: 64-point transform, two bands, 100 to 2000 Hz *)

Definition fb64 : MelFb := built 2 32 100 2000.

(** A spectrogram of one frame whose 32 values are all 1. *)
Definition ones32 : Stft := mkStft 1 [repeat 1 32%nat].

(** ** A high cut at the sample rate: 256-point transform, one band, 0 to 8000 Hz *)

Definition fb256 : MelFb := built 1 128 0 8000.

(** A spectrogram of one frame of 256 values, all 1. *)
Definition ones256 : Stft := mkStft 1 [repeat 1 256%nat].

(** ** Notions used by the further properties *)

(** The value a call of [applyMelFB] leaves in cell [(i, j)] of the output
    matrix when that cell is written. *)
Definition written (fb : MelFb) (stft : Stft) (maxFilterSize : Z) (i j : nat)
  : option Fw32f :=
  match band_value fb stft maxFilterSize i j with
  | Some (Some v) => Some v
  | _ => None
  end.

(** The spectrogram with every value multiplied by [a]. *)
Definition scale_stft (a : Fw32f) (stft : Stft) : Stft :=
  mkStft (NoOfWindows stft) (map (map (Rmult a)) (spectrogramm stft)).

(** * Properties *)

(** ** Rounding *)

Lemma round_int_eq (z : Z) (x : R) :
  IZR z - / 2 < x < IZR z + / 2 -> round_int x = z.
Proof.
  intros [Hl Hu]. unfold round_int.
  destruct (Rle_dec 0 x) as [Hx | Hx].
  - apply Zfloor_eq. lra.
  - apply Zceil_eq. split; [|lra].
    assert (Hz : (z <= 0)%Z).
    { apply Z.lt_succ_r. apply lt_IZR. rewrite succ_IZR. lra. }
    apply IZR_le in Hz. lra.
Qed.



Lemma round_int_le (x y : R) : x <= y -> (round_int x <= round_int y)%Z.
Proof.
  intros Hxy. unfold round_int.
  destruct (Rle_dec 0 x) as [Hx | Hx]; destruct (Rle_dec 0 y) as [Hy | Hy]; try lra.
  - apply Zfloor_le. lra.
  - apply Z.le_trans with 0%Z.
    + apply le_IZR. pose proof (Zceil_bound (x - / 2)) as Hb.
      assert (Hc : (Zceil (x - / 2) < 1)%Z) by (apply lt_IZR; lra).
      apply IZR_le. lia.
    + apply Zfloor_lub. lra.
  - apply Zceil_le. lra.
Qed.

Lemma roundf_le (x y : R) : x <= y -> roundf x <= roundf y.
Proof. intros H. apply IZR_le, round_int_le, H. Qed.

(** ** The frequency maps *)

Lemma ln10_pos : 0 < ln 10.
Proof. rewrite <- ln_1. apply ln_increasing; lra. Qed.

Lemma ln2_pos : 0 < ln 2.
Proof. rewrite <- ln_1. apply ln_increasing; lra. Qed.

Lemma melToLin_exp (m : R) : melToLin m = 700 * (exp (m / 2595 * ln 10) - 1).
Proof. reflexivity. Qed.

(** The frequency whose mel value lies the fraction [t] of the way from
    [linToMel lo] to [linToMel hi]. *)
Lemma melToLin_between (lo hi t : R) :
  -700 < lo -> -700 < hi ->
  melToLin (linToMel lo + t * (linToMel hi - linToMel lo))
  = 700 * (exp ((1 - t) * ln (1 + lo / 700) + t * ln (1 + hi / 700)) - 1).
Proof.
  intros Hlo Hhi. rewrite melToLin_exp. unfold linToMel, logf.
  pose proof ln10_pos.
  match goal with |- 700 * (exp ?a - 1) = 700 * (exp ?b - 1) =>
    replace a with b; [reflexivity | field; lra] end.
Qed.

Lemma linToMel_le (f g : R) : -700 < f -> f <= g -> linToMel f <= linToMel g.
Proof.
  intros Hf Hfg. unfold linToMel, logf. pose proof ln10_pos as H10.
  assert (ln (1 + f / 700) <= ln (1 + g / 700)).
  { destruct Hfg as [Hlt | ->]; [left; apply ln_increasing; lra | right; reflexivity]. }
  apply Rmult_le_compat_l; [lra|].
  unfold Rdiv. apply Rmult_le_compat_r; [left; apply Rinv_0_lt_compat; lra | lra].
Qed.

Lemma melToLin_le (m p : R) : m <= p -> melToLin m <= melToLin p.
Proof.
  intros Hmp. rewrite !melToLin_exp. pose proof ln10_pos as H10.
  assert (m / 2595 * ln 10 <= p / 2595 * ln 10) by nra.
  assert (exp (m / 2595 * ln 10) <= exp (p / 2595 * ln 10)).
  { destruct H as [Hlt | ->]; [left; apply exp_increasing; lra | right; reflexivity]. }
  lra.
Qed.

Lemma melToLin_linToMel (f : R) : -700 < f -> melToLin (linToMel f) = f.
Proof.
  intros Hf. pose proof ln10_pos as H10.
  rewrite melToLin_exp. unfold linToMel, logf.
  replace (2595 * (ln (1 + f / 700) / ln 10) / 2595 * ln 10)
    with (ln (1 + f / 700)) by (field; lra).
  rewrite exp_ln by lra. field.
Qed.

Lemma linToMel_melToLin (m : R) : linToMel (melToLin m) = m.
Proof.
  pose proof ln10_pos as H10.
  unfold linToMel, logf. rewrite melToLin_exp.
  replace (1 + 700 * (exp (m / 2595 * ln 10) - 1) / 700)
    with (exp (m / 2595 * ln 10)) by field.
  rewrite ln_exp. field. lra.
Qed.

(** C9: [linToMel] (frequencyToMel, 2595*log10(1+f/700)) and [melToLin]
    (melToFrequency, 700*(10^(m/2595)-1)) are mutual inverses: for every
    frequency [f >= 0], [melToLin (linToMel f) = f], and for every mel
    value [m], [linToMel (melToLin m) = m]. *)
Theorem mel_maps_inverse (f m : R) :
  0 <= f ->
  linToMel f = 2595 * (ln (1 + f / 700) / ln 10) /\
  melToLin m = 700 * (Rpower 10 (m / 2595) - 1) /\
  melToLin (linToMel f) = f /\
  linToMel (melToLin m) = m.
Proof.
  intros Hf. split; [reflexivity|]. split; [reflexivity|]. split.
  - apply melToLin_linToMel. lra.
  - apply linToMel_melToLin.
Qed.

Lemma mel_maps_inverse_witness :
  0 <= 1000 /\ melToLin (linToMel 1000) = 1000 /\ linToMel (melToLin 1500) = 1500.
Proof.
  split; [lra|].
  split; apply (mel_maps_inverse 1000 1500); lra.
Defined.

(** ** The constructor: fftOrder and fbSize *)

Lemma ln_pow2 (k : Z) : (0 <= k)%Z -> ln (IZR (2 ^ k)) = IZR k * ln 2.
Proof.
  intros Hk. rewrite <- (Z2Nat.id k Hk) at 1.
  rewrite <- pow_IZR, ln_pow by lra.
  rewrite INR_IZR_INZ, Z2Nat.id by assumption. reflexivity.
Qed.

Lemma log2_ratio_bounds (n k : Z) :
  (0 < n)%Z -> (0 <= k)%Z ->
  ((n <= 2 ^ k)%Z -> ln (IZR n) / ln 2 <= IZR k) /\
  ((2 ^ k < n)%Z -> IZR k < ln (IZR n) / ln 2).
Proof.
  intros Hn Hk. pose proof ln2_pos as H2.
  assert (Hn' : 0 < IZR n) by (apply IZR_lt; assumption).
  assert (Hp : 0 < IZR (2 ^ k)) by (apply IZR_lt; lia).
  split; intros H.
  - apply Rmult_le_reg_r with (ln 2); [assumption|].
    replace (ln (IZR n) / ln 2 * ln 2) with (ln (IZR n)) by (field; lra).
    rewrite <- ln_pow2 by assumption.
    apply IZR_le in H.
    destruct H as [H | ->]; [left; apply ln_increasing; lra | right; reflexivity].
  - apply Rmult_lt_reg_r with (ln 2); [assumption|].
    replace (ln (IZR n) / ln 2 * ln 2) with (ln (IZR n)) by (field; lra).
    rewrite <- ln_pow2 by assumption.
    apply ln_increasing; [assumption | apply IZR_lt; assumption].
Qed.

(** The conversion to [float] keeps a size up to [2^24]. *)
Lemma round24_small (n : Z) : (0 <= n <= 2 ^ 24)%Z -> round24 n = n.
Proof.
  intros H. destruct (Z.eq_dec n (2 ^ 24)) as [-> | Hn]; [reflexivity|].
  unfold round24. rewrite Z.abs_eq by lia.
  destruct (Z.ltb_spec n (2 ^ 24)); [reflexivity | lia].
Qed.

(** A larger size is rounded to a multiple [m * 2^e] of a power of two
    with [2^23 <= m <= 2^24]; it stays positive and does not pass the next
    power of two. *)
Lemma round24_large (n : Z) :
  (2 ^ 24 <= n)%Z ->
  (2 ^ Z.log2 n <= round24 n <= 2 ^ (Z.log2 n + 1))%Z.
Proof.
  intros H. unfold round24. rewrite Z.abs_eq by lia.
  destruct (Z.ltb_spec n (2 ^ 24)) as [? | _]; [lia|].
  rewrite Z.sgn_pos by lia.
  pose proof (Z.log2_spec n ltac:(lia)) as [Hlo Hhi].
  assert (HL : (24 <= Z.log2 n)%Z).
  { change 24%Z with (Z.log2 (2 ^ 24)). apply Z.log2_le_mono. assumption. }
  set (e := (Z.log2 n - 23)%Z) in *.
  assert (He : (0 < 2 ^ e)%Z) by (apply Z.pow_pos_nonneg; lia).
  assert (E1 : (2 ^ Z.log2 n = 2 ^ 23 * 2 ^ e)%Z).
  { rewrite <- Z.pow_add_r by lia. f_equal. lia. }
  assert (E2 : (2 ^ Z.succ (Z.log2 n) = 2 ^ 24 * 2 ^ e)%Z).
  { rewrite <- Z.pow_add_r by lia. f_equal. lia. }
  replace (Z.log2 n + 1)%Z with (Z.succ (Z.log2 n)) by lia.
  assert (Hq1 : (2 ^ 23 <= n / 2 ^ e)%Z) by (apply Z.div_le_lower_bound; lia).
  assert (Hq2 : (n / 2 ^ e < 2 ^ 24)%Z) by (apply Z.div_lt_upper_bound; lia).
  set (q := (n / 2 ^ e)%Z) in *.
  match goal with |- (_ <= 1 * (?m * _) <= _)%Z =>
    assert (Hm : (2 ^ 23 <= m <= 2 ^ 24)%Z) end.
  { destruct (_ <? _)%Z; [lia|]. destruct (_ <? _)%Z; [lia|].
    destruct (Z.even q); lia. }
  rewrite E1, E2. split; nia.
Qed.

Lemma round24_pos (n : Z) : (0 < n)%Z -> (0 < round24 n)%Z.
Proof.
  intros H. destruct (Z_lt_le_dec n (2 ^ 24)).
  - rewrite round24_small by lia. assumption.
  - pose proof (round24_large n ltac:(assumption)) as [Hr _].
    assert (0 < 2 ^ Z.log2 n)%Z by (apply Z.pow_pos_nonneg; [lia | apply Z.log2_nonneg]).
    lia.
Qed.

Lemma round24_le30 (n : Z) : (0 < n <= 2 ^ 30)%Z -> (0 < round24 n <= 2 ^ 30)%Z.
Proof.
  intros H. split; [apply round24_pos; lia|].
  destruct (Z_lt_le_dec n (2 ^ 24)); [rewrite round24_small by lia; lia|].
  destruct (Z.eq_dec n (2 ^ 30)) as [-> | Hn]; [vm_compute; discriminate|].
  pose proof (round24_large n ltac:(assumption)) as [_ Hr].
  assert (Z.log2 n < 30)%Z by (apply Z.log2_lt_pow2; lia).
  assert (2 ^ (Z.log2 n + 1) <= 2 ^ 30)%Z by (apply Z.pow_le_mono_r; lia).
  lia.
Qed.

(** On a positive size the order is the exponent of the next power of two
    above the converted size. *)
Lemma fftOrder_eq (n : Z) : (0 < n)%Z -> fftOrder n = Some (Z.log2_up (round24 n)).
Proof.
  intros Hn0. unfold fftOrder, float_of_int.
  destruct (Z.ltb_spec 0 n) as [_ | ?]; [|lia].
  pose proof (round24_pos n Hn0) as Hn. revert Hn. generalize (round24 n). clear n Hn0.
  intros n Hn.
  f_equal. unfold ceil, logf. apply Zceil_eq.
  destruct (Z.eq_dec n 1) as [-> | Hn1].
  - rewrite ln_1. change (Z.log2_up 1) with 0%Z. lra.
  - pose proof (Z.log2_up_spec n ltac:(lia)) as [Hlo Hhi].
    pose proof (Z.log2_up_pos n ltac:(lia)) as Hpos.
    split.
    + rewrite <- minus_IZR. change (Z.log2_up n - 1)%Z with (Z.pred (Z.log2_up n)).
      apply log2_ratio_bounds; lia.
    + apply log2_ratio_bounds; lia.
Qed.

(** For a size that the conversion keeps, this is the exponent of the next
    power of two above the size itself. *)
Lemma fftOrder_log2_up (n : Z) : (0 < n <= 2 ^ 24)%Z -> fftOrder n = Some (Z.log2_up n).
Proof. intros Hn. rewrite fftOrder_eq, round24_small by lia. reflexivity. Qed.

Lemma fbSize_of_small (order : Z) :
  (0 <= order <= 30)%Z -> fbSize_of order = (2 ^ order / 2)%Z.
Proof.
  intros H. unfold fbSize_of, wrap32. rewrite Z.shiftl_1_l.
  assert (Hb : (0 < 2 ^ order <= 2 ^ 30)%Z).
  { split; [lia | apply Z.pow_le_mono_r; lia]. }
  rewrite Z.mod_small by lia.
  replace (2 ^ order + 2 ^ 31 - 2 ^ 31)%Z with (2 ^ order)%Z by lia.
  apply Z.quot_div_nonneg; lia.
Qed.

Lemma log2_up_le30 (n : Z) : (0 < n <= 2 ^ 30)%Z -> (0 <= Z.log2_up n <= 30)%Z.
Proof.
  intros H. split; [apply Z.log2_up_nonneg|].
  change 30%Z with (Z.log2_up (2 ^ 30)). apply Z.log2_up_le_mono. lia.
Qed.

Lemma flt_true (a b : R) : a < b -> flt a b = true.
Proof. intros H. unfold flt. destruct (Rlt_dec a b); [reflexivity | contradiction]. Qed.

Lemma flt_false (a b : R) : b <= a -> flt a b = false.
Proof. intros H. unfold flt. destruct (Rlt_dec a b); [lra | reflexivity]. Qed.

Lemma fle_true (a b : R) : a <= b -> fle a b = true.
Proof. intros H. unfold fle. destruct (Rle_dec a b); [reflexivity | contradiction]. Qed.

Lemma fle_false (a b : R) : b < a -> fle a b = false.
Proof. intros H. unfold fle. destruct (Rle_dec a b); [lra | reflexivity]. Qed.

(** ** Shape of what [calcMelFB] builds *)

Lemma store_length (a : list R) (i : nat) (v : R) : List.length (store a i v) = List.length a.
Proof.
  revert i. induction a as [|h t IH]; intros [|j]; simpl; try reflexivity.
  f_equal. apply IH.
Qed.

Lemma load_store_same (a : list R) (i : nat) (v : R) :
  (i < List.length a)%nat -> load (store a i v) i = v.
Proof.
  unfold load. revert i. induction a as [|h t IH]; intros [|j] H; simpl in *; try lia.
  - reflexivity.
  - apply IH. lia.
Qed.

Lemma load_store_other (a : list R) (i j : nat) (v : R) :
  i <> j -> load (store a i v) j = load a j.
Proof.
  unfold load. revert i j. induction a as [|h t IH]; intros [|i] [|j] H; simpl; try reflexivity.
  - contradiction.
  - apply IH. congruence.
Qed.

Lemma fwsMalloc_length (n : Z) : List.length (fwsMalloc_32f n) = Z.to_nat n.
Proof. apply repeat_length. Qed.

Lemma calcRow_length (lo c hi : R) (todo : nat) :
  forall k x, List.length (fst (calcRow lo c hi k todo x)) = todo.
Proof.
  induction todo as [|t IH]; intros k x; simpl; [reflexivity|].
  destruct (bin_step lo c hi k x) as [w x1].
  specialize (IH (k + 1)%Z x1).
  destruct (calcRow lo c hi (k + 1) t x1) as [row x2]. simpl in *. lia.
Qed.

(** ** The boundary loop *)

Section EdgesLoop.
Variables (n : nat) (bs delta melLo lo0 : R).

Local Abbreviation e0 := (edges_init n melLo lo0).
Local Abbreviation after := (edges_after n bs delta melLo lo0).
Local Abbreviation ctr := (center_at bs delta melLo).
Local Abbreviation Inv := (edges_inv n bs delta melLo lo0).

Lemma edges_after_S (k : nat) :
  after (S k) = edges_step n bs delta (after k) k.
Proof. unfold edges_after. rewrite seq_S, fold_left_app. reflexivity. Qed.

Hypothesis n_pos : (0 < n)%nat.

Lemma edges_inv_0 : Inv 0 e0.
Proof.
  constructor; simpl; try (intros; lia).
  - lra.
  - apply repeat_length.
  - rewrite store_length. apply repeat_length.
  - apply repeat_length.
  - apply load_store_same. rewrite repeat_length. assumption.
Qed.

Lemma edges_inv_step (k : nat) (e : edges) :
  (k < n)%nat -> Inv k e -> Inv (S k) (edges_step n bs delta e k).
Proof.
  intros Hk [Hm Hc Hl Hh Ic Ih Il I0].
  assert (Hctr : load (store (fCenter e) k (roundf (melToLin (melCenter e + delta) / bs))) k
                 = ctr k).
  { rewrite load_store_same by lia. unfold center_at. rewrite Hm.
    do 3 f_equal. lra. }
  unfold edges_step. constructor; cbn [melCenter fCenter eLo eHi].
  - rewrite Hm, S_INR. lra.
  - rewrite store_length. assumption.
  - destruct (k <? n - 1)%nat; [rewrite store_length|]; assumption.
  - destruct (0 <? k)%nat; [rewrite store_length|]; assumption.
  - intros j Hj. destruct (Nat.eq_dec j k) as [-> | Hne].
    + exact Hctr.
    + rewrite load_store_other by congruence. apply Ic. lia.
  - intros j Hj. destruct (Nat.ltb_spec 0 k) as [Hk0 | Hk0]; [|lia].
    rewrite Hctr. destruct (Nat.eq_dec (S j) k) as [<- | Hne].
    + replace (S j - 1)%nat with j by lia. apply load_store_same. lia.
    + rewrite load_store_other by lia. apply Ih. lia.
  - intros j Hj Hjn. rewrite Hctr.
    destruct (Nat.ltb_spec k (n - 1)) as [Hkn | Hkn].
    + destruct (Nat.eq_dec j k) as [-> | Hne].
      * replace (k + 1)%nat with (S k) by lia. apply load_store_same. lia.
      * rewrite load_store_other by lia. apply Il; lia.
    + apply Il; lia.
  - destruct (Nat.ltb_spec k (n - 1)) as [Hkn | Hkn]; [|assumption].
    rewrite load_store_other by lia. assumption.
Qed.

Lemma edges_after_inv (k : nat) : (k <= n)%nat -> Inv k (after k).
Proof.
  induction k as [|k IH]; intros Hk.
  - apply edges_inv_0.
  - rewrite edges_after_S. apply edges_inv_step; [lia | apply IH; lia].
Qed.
End EdgesLoop.

(** ** What [calcEdges] returns *)

Section CalcEdges.
Variables (N F : Z) (lo hi : R).
Hypothesis N_pos : (0 < N)%Z.

Local Abbreviation n := (Z.to_nat N).
Local Abbreviation bs := (binSize F).
Local Abbreviation delta := (melDelta N lo hi).
Local Abbreviation ctr := (center_at bs delta (linToMel lo)).
Local Abbreviation e := (calcEdges N F lo hi).

Lemma calcEdges_unfold :
  e = let a := edges_after n bs delta (linToMel lo) (roundf (lo / bs)) n in
      mkEdges (melCenter a) (fCenter a) (eLo a) (store (eHi a) (n - 1) (hi / bs)).
Proof. reflexivity. Qed.

Lemma calcEdges_inv :
  edges_inv n bs delta (linToMel lo) (roundf (lo / bs)) n
            (edges_after n bs delta (linToMel lo) (roundf (lo / bs)) n).
Proof. apply edges_after_inv; lia. Qed.

Lemma calcEdges_lengths :
  List.length (fCenter e) = n /\ List.length (eLo e) = n /\ List.length (eHi e) = n.
Proof.
  destruct calcEdges_inv as [_ Hc Hl Hh _ _ _ _]. rewrite calcEdges_unfold. simpl.
  rewrite store_length. auto.
Qed.

Lemma calcEdges_center (j : nat) : (j < n)%nat -> load (fCenter e) j = ctr j.
Proof. intros Hj. apply (inv_center _ _ _ _ _ _ _ calcEdges_inv). assumption. Qed.

Lemma calcEdges_lo0 : load (eLo e) 0 = roundf (lo / bs).
Proof. apply (inv_lo0 _ _ _ _ _ _ _ calcEdges_inv). Qed.

Lemma calcEdges_lo_S (j : nat) : (S j < n)%nat -> load (eLo e) (S j) = ctr j.
Proof. intros Hj. apply (inv_lo _ _ _ _ _ _ _ calcEdges_inv); lia. Qed.

Lemma calcEdges_hi (j : nat) : (S j < n)%nat -> load (eHi e) j = ctr (S j).
Proof.
  intros Hj. rewrite calcEdges_unfold. simpl.
  rewrite load_store_other by lia.
  apply (inv_hi _ _ _ _ _ _ _ calcEdges_inv). assumption.
Qed.

Lemma calcEdges_hi_last : load (eHi e) (n - 1) = hi / bs.
Proof.
  rewrite calcEdges_unfold. simpl. apply load_store_same.
  rewrite (inv_len_hi _ _ _ _ _ _ _ calcEdges_inv). lia.
Qed.
End CalcEdges.

(** ** The weight loop *)

Lemma weights_fold (F : Z) (e : edges) (bands : list nat) (rows : list (list R)) :
  fold_left (weights_step F e) bands (rows, 0) = (rows ++ map (row_of F e) bands, 0).
Proof.
  revert rows. induction bands as [|b bands IH]; intros rows.
  - simpl. rewrite app_nil_r. reflexivity.
  - cbn [fold_left map]. assert (Hrow : weights_step F e (rows, 0) b = (rows ++ [row_of F e b], 0)).
    { unfold weights_step, row_of.
      destruct (calcRow (load (eLo e) b) (load (fCenter e) b) (load (eHi e) b) 0
                        (Z.to_nat F) 0) as [row x']. reflexivity. }
    rewrite Hrow, IH, <- app_assoc. reflexivity.
Qed.

Lemma calcWeights_map (N F : Z) (e : edges) :
  calcWeights N F e = map (row_of F e) (seq 0 (Z.to_nat N)).
Proof. unfold calcWeights. rewrite weights_fold. reflexivity. Qed.

Lemma row_of_length (F : Z) (e : edges) (band : nat) :
  List.length (row_of F e band) = Z.to_nat F.
Proof. apply calcRow_length. Qed.

Lemma calcWeights_row (N F : Z) (e : edges) (band : nat) :
  (band < Z.to_nat N)%nat ->
  nth_error (calcWeights N F e) band = Some (row_of F e band).
Proof.
  intros Hb. rewrite calcWeights_map.
  rewrite nth_error_map, nth_error_nth' with (d := O) by (rewrite length_seq; assumption).
  rewrite seq_nth by assumption. reflexivity.
Qed.

(** ** When the constructor returns an object *)

Lemma calcMelFB_built (N F : Z) (lo hi : R) :
  (0 < N)%Z -> (0 <= F)%Z -> calcMelFB N F lo hi = Built (built N F lo hi).
Proof.
  intros HN HF. unfold calcMelFB.
  destruct (Z.ltb_spec N 0); [lia|].
  destruct (Z.eqb_spec N 0); [lia|].
  destruct (Z.ltb_spec F 0); [lia|]. reflexivity.
Qed.

Lemma calcMelFB_inv (N F : Z) (lo hi : R) (fb : MelFb) :
  calcMelFB N F lo hi = Built fb -> (0 < N)%Z /\ (0 <= F)%Z /\ fb = built N F lo hi.
Proof.
  unfold calcMelFB.
  destruct (Z.ltb_spec N 0); [discriminate|].
  destruct (Z.eqb_spec N 0); [discriminate|].
  destruct (Z.ltb_spec F 0); [discriminate|].
  intros [= <-]. repeat split; lia.
Qed.

Lemma MelFb_new_builds (fftSize numBanks locut hicut : Z) :
  (0 < fftSize <= 2 ^ 30)%Z -> (hicut <= 8000)%Z -> (0 < numBanks)%Z ->
  MelFb_new fftSize numBanks locut hicut
  = Built (built numBanks (2 ^ Z.log2_up (round24 fftSize) / 2) (IZR locut) (IZR hicut)).
Proof.
  intros Hf Hh Hn. unfold MelFb_new. rewrite fftOrder_eq by lia.
  rewrite flt_false by (unfold SAMPLE_RATE; apply IZR_le; assumption).
  destruct (Z.eqb_spec numBanks 0); [lia|].
  pose proof (log2_up_le30 _ (round24_le30 fftSize Hf)) as Ho.
  rewrite fbSize_of_small by assumption.
  apply calcMelFB_built; [assumption|].
  apply Z.div_pos; lia.
Qed.

Lemma MelFb_new_built (fftSize numBanks locut hicut : Z) :
  (0 < fftSize <= 2 ^ 24)%Z -> (hicut <= 8000)%Z -> (0 < numBanks)%Z ->
  MelFb_new fftSize numBanks locut hicut
  = Built (built numBanks (2 ^ Z.log2_up fftSize / 2) (IZR locut) (IZR hicut)).
Proof.
  intros Hf Hh Hn. rewrite MelFb_new_builds by lia.
  rewrite round24_small by lia. reflexivity.
Qed.

Lemma MelFb_new_inv (fftSize numBanks locut hicut : Z) (fb : MelFb) :
  MelFb_new fftSize numBanks locut hicut = Built fb ->
  (0 < fftSize)%Z /\ (hicut <= 8000)%Z /\ (0 < numBanks)%Z /\
  (0 <= fbSize fb)%Z /\
  fb = built numBanks (fbSize_of (Z.log2_up (round24 fftSize))) (IZR locut) (IZR hicut).
Proof.
  unfold MelFb_new.
  destruct (Z.ltb_spec 0 fftSize) as [Hf | Hf];
    [|unfold fftOrder; destruct (Z.ltb_spec 0 fftSize); [lia | discriminate]].
  rewrite fftOrder_eq by assumption.
  destruct (Rlt_dec SAMPLE_RATE (IZR hicut)) as [Hh | Hh] eqn:E;
    unfold flt; rewrite E; [discriminate|].
  destruct (Z.eqb_spec numBanks 0); [discriminate|].
  intros Hb.
  apply calcMelFB_inv in Hb. destruct Hb as (HN & HF & ->).
  repeat split; try assumption.
  apply le_IZR. unfold SAMPLE_RATE in Hh. lra.
Qed.

Lemma log2_up_next_pow2 (n : Z) : (0 < n)%Z -> is_next_pow2 n (2 ^ Z.log2_up n).
Proof.
  intros Hn. pose proof (Z.log2_up_nonneg n) as H0.
  split; [exists (Z.log2_up n); auto|]. split.
  - destruct (Z.eq_dec n 1) as [-> | Hn1]; [simpl; lia|].
    apply (Z.log2_up_spec n). lia.
  - intros j Hj Hle. apply Z.pow_le_mono_r; [lia|].
    rewrite <- (Z.log2_up_pow2 j Hj). apply Z.log2_up_le_mono. assumption.
Qed.

Lemma built_shape (N F : Z) (lo hi : R) :
  (0 < N)%Z ->
  let fb := built N F lo hi in
  numFilterBanks fb = N /\ fbSize fb = F /\ loCut fb = lo /\ hiCut fb = hi /\
  List.length (fLo fb) = Z.to_nat N /\ List.length (fHi fb) = Z.to_nat N /\
  List.length (fbank fb) = Z.to_nat N /\
  Forall (fun row => List.length row = Z.to_nat F) (fbank fb).
Proof.
  intros HN fb. pose proof (calcEdges_lengths N F lo hi HN) as (_ & Hl & Hh).
  repeat split; try assumption.
  - simpl. rewrite calcWeights_map, length_map, length_seq. reflexivity.
  - simpl. rewrite calcWeights_map. apply Forall_map, Forall_forall.
    intros band _. apply row_of_length.
Qed.

(** C3 (amended): on a positive [fftSize] the constructor throws one of its
    two messages (InvalidConfig) exactly when [hicut > SAMPLE_RATE] or
    [numBanks = 0], and then no object exists; for [fftSize <= 2^30],
    [hicut <= SAMPLE_RATE] and [numBanks > 0] it returns the built object,
    which holds the configuration, boundary arrays of [numBanks] cells and
    a weight table of [numBanks] rows of [fbSize] bins. *)
Theorem construction_outcome (fftSize numBanks locut hicut : Z) :
  (0 < fftSize)%Z ->
  ((exists what, MelFb_new fftSize numBanks locut hicut = InvalidConfig what)
   <-> (SAMPLE_RATE < IZR hicut \/ numBanks = 0%Z)) /\
  ((fftSize <= 2 ^ 30)%Z -> IZR hicut <= SAMPLE_RATE -> (0 < numBanks)%Z ->
   exists fb, MelFb_new fftSize numBanks locut hicut = Built fb /\
     numFilterBanks fb = numBanks /\
     loCut fb = IZR locut /\ hiCut fb = IZR hicut /\
     (0 <= fbSize fb)%Z /\
     List.length (fLo fb) = Z.to_nat numBanks /\
     List.length (fHi fb) = Z.to_nat numBanks /\
     List.length (fbank fb) = Z.to_nat numBanks /\
     Forall (fun row => List.length row = Z.to_nat (fbSize fb)) (fbank fb)).
Proof.
  intros Hf. split.
  - unfold MelFb_new. rewrite fftOrder_eq by assumption.
    destruct (Rlt_dec SAMPLE_RATE (IZR hicut)) as [Hh | Hh].
    + rewrite flt_true by assumption. split; [auto | eauto].
    + rewrite flt_false by lra.
      destruct (Z.eqb_spec numBanks 0) as [Hn | Hn].
      * split; [auto | eauto].
      * split.
        -- intros [what Hw]. exfalso. unfold calcMelFB in Hw.
           destruct (numBanks <? 0)%Z; [discriminate|].
           destruct (numBanks =? 0)%Z; [discriminate|].
           destruct (fbSize_of (Z.log2_up (round24 fftSize)) <? 0)%Z; discriminate.
        -- intros [H | H]; [contradiction | contradiction].
  - intros Hf' Hh Hn.
    assert (Hh' : (hicut <= 8000)%Z) by (apply le_IZR; exact Hh).
    set (F := (2 ^ Z.log2_up (round24 fftSize) / 2)%Z).
    exists (built numBanks F (IZR locut) (IZR hicut)).
    split; [apply MelFb_new_builds; lia|].
    pose proof (built_shape numBanks F (IZR locut) (IZR hicut) Hn)
      as (H1 & H2 & H3 & H4 & H5 & H6 & H7 & H8).
    rewrite H2.
    assert (0 <= F)%Z.
    { apply Z.div_pos; [|lia]. apply Z.pow_nonneg. lia. }
    auto 10.
Qed.

Lemma construction_outcome_witness :
  (0 < 256)%Z /\
  exists fb, MelFb_new 256 4 300 3400 = Built fb /\
    numFilterBanks fb = 4%Z /\ loCut fb = 300 /\ hiCut fb = 3400 /\
    fbSize fb = 128%Z /\
    List.length (fLo fb) = 4%nat /\ List.length (fHi fb) = 4%nat /\
    List.length (fbank fb) = 4%nat /\
    Forall (fun row => List.length row = 128%nat) (fbank fb).
Proof.
  split; [lia|].
  destruct (proj2 (construction_outcome 256 4 300 3400 ltac:(lia)))
    as (fb & Hb & HN & Hlo & Hhi & _ & Hl & Hh & Hr & Hrows);
    [lia | unfold SAMPLE_RATE; lra | lia |].
  assert (HF : fbSize fb = 128%Z).
  { pose proof (MelFb_new_built 256 4 300 3400 ltac:(lia) ltac:(lia) ltac:(lia)) as Hb'.
    rewrite Hb in Hb'. injection Hb' as ->. reflexivity. }
  rewrite HF in Hrows.
  exists fb. repeat split; assumption.
Defined.

(** Against C3 as stated: two configurations outside both checks of the
    constructor that do not yield an object.  A negative number of banks
    ends in the array allocation [new Fw32f *[numFilterBanks]] of
    [calcMelFB].  The transform size [3 * 2^29] has the order 31: the shift
    [1 << 31] leaves the range of [int], [fbSize] is negative and the
    constructor ends in [new Fw32f[fbSize]].  Construction neither throws
    InvalidConfig nor returns an object. *)
Lemma construction_not_total :
  (MelFb_new 256 (-1) 300 3400 = bad_array_new_length /\
   ~ (SAMPLE_RATE < IZR 3400 \/ (-1)%Z = 0%Z) /\
   ~ (exists fb, MelFb_new 256 (-1) 300 3400 = Built fb)) /\
  (fftOrder 1610612736 = Some 31%Z /\
   MelFb_new 1610612736 4 300 3400 = bad_array_new_length /\
   ~ (SAMPLE_RATE < IZR 3400 \/ 4%Z = 0%Z)).
Proof.
  assert (H : MelFb_new 256 (-1) 300 3400 = bad_array_new_length).
  { unfold MelFb_new. rewrite fftOrder_log2_up by lia.
    rewrite flt_false by (unfold SAMPLE_RATE; lra). reflexivity. }
  assert (Ho : fftOrder 1610612736 = Some 31%Z).
  { rewrite fftOrder_eq by lia. reflexivity. }
  split; [split; [exact H | split]|split; [exact Ho | split]].
  - unfold SAMPLE_RATE. intros [Hc | Hc]; [lra | lia].
  - intros [fb Hfb]. rewrite H in Hfb. discriminate.
  - unfold MelFb_new. rewrite Ho.
    rewrite flt_false by (unfold SAMPLE_RATE; lra). reflexivity.
  - unfold SAMPLE_RATE. intros [Hc | Hc]; [lra | lia].
Qed.

(** C8: the transform size [2^24 + 1] is accepted and the smallest power of
    two that is not below it is [2^25], but the constructor derives
    [fbSize = 2^23], not [2^24]: the conversion [(float)fftSize] rounds the
    size to [2^24], whose logarithm to base 2 is 24, so the size is not
    rounded up to the next power of two. *)
Theorem fbSize_below_half_next_pow2 :
  float_of_int 16777217 = 16777216 /\
  fftOrder 16777217 = Some 24%Z /\
  (exists fb, MelFb_new 16777217 4 300 3400 = Built fb /\ fbSize fb = 8388608%Z) /\
  is_next_pow2 16777217 33554432 /\
  (33554432 / 2 = 16777216)%Z /\
  binSize 8388608 = SAMPLE_RATE / (2 * 8388608 - 1).
Proof.
  split; [reflexivity|].
  split; [rewrite fftOrder_eq by lia; reflexivity|].
  split; [|split; [|split]].
  - rewrite MelFb_new_builds by lia. eexists. split; [reflexivity|]. reflexivity.
  - change 33554432%Z with (2 ^ Z.log2_up 16777217)%Z.
    apply log2_up_next_pow2. lia.
  - reflexivity.
  - unfold binSize. f_equal. lra.
Qed.

(** ** Band boundaries of a built object *)

Lemma melDelta_eq (N : Z) (lo hi : R) :
  melDelta N lo hi = (linToMel hi - linToMel lo) / (IZR N + 1).
Proof. unfold melDelta. rewrite plus_IZR. reflexivity. Qed.

(** ** A worked configuration: two bands between 100 Hz and 2000 Hz

    [1 + 100/700 = 8/7] and [1 + 2000/700 = 27/7], so the three mel steps
    multiply [1 + f/700] by [3/2] each: the band centres lie at 500 Hz and
    1100 Hz. *)

Lemma ln_quot (a b : R) : 0 < a -> 0 < b -> ln (a / b) = ln a - ln b.
Proof.
  intros Ha Hb. unfold Rdiv. rewrite ln_mult, ln_Rinv; try assumption; [lra|].
  apply Rinv_0_lt_compat. assumption.
Qed.

Lemma ln_lo_100 : ln (1 + 100 / 700) = 3 * ln 2 - ln 7.
Proof.
  replace (1 + 100 / 700) with (2 * (2 * 2) / 7) by lra.
  rewrite ln_quot, !ln_mult by lra. lra.
Qed.

Lemma ln_hi_2000 : ln (1 + 2000 / 700) = 3 * ln 3 - ln 7.
Proof.
  replace (1 + 2000 / 700) with (3 * (3 * 3) / 7) by lra.
  rewrite ln_quot, !ln_mult by lra. lra.
Qed.

Lemma ln_12_7 : ln (12 / 7) = 2 * ln 2 + ln 3 - ln 7.
Proof.
  replace (12 / 7) with (2 * (2 * 3) / 7) by lra.
  rewrite ln_quot, !ln_mult by lra. lra.
Qed.

Lemma ln_18_7 : ln (18 / 7) = ln 2 + 2 * ln 3 - ln 7.
Proof.
  replace (18 / 7) with (2 * (3 * 3) / 7) by lra.
  rewrite ln_quot, !ln_mult by lra. lra.
Qed.

Lemma mel_center_500 :
  melToLin (linToMel 100 + (INR 0 + 1) * melDelta 2 100 2000) = 500.
Proof.
  unfold melDelta. simpl (INR 0). simpl (2 + 1)%Z.
  replace (linToMel 100 + (0 + 1) * ((linToMel 2000 - linToMel 100) / 3))
    with (linToMel 100 + / 3 * (linToMel 2000 - linToMel 100)) by lra.
  rewrite melToLin_between by lra. rewrite ln_lo_100, ln_hi_2000.
  replace ((1 - / 3) * (3 * ln 2 - ln 7) + / 3 * (3 * ln 3 - ln 7))
    with (ln (12 / 7)) by (rewrite ln_12_7; lra).
  rewrite exp_ln by lra. lra.
Qed.

Lemma mel_center_1100 :
  melToLin (linToMel 100 + (INR 1 + 1) * melDelta 2 100 2000) = 1100.
Proof.
  unfold melDelta. simpl (INR 1). simpl (2 + 1)%Z.
  replace (linToMel 100 + (1 + 1) * ((linToMel 2000 - linToMel 100) / 3))
    with (linToMel 100 + 2 / 3 * (linToMel 2000 - linToMel 100)) by lra.
  rewrite melToLin_between by lra. rewrite ln_lo_100, ln_hi_2000.
  replace ((1 - 2 / 3) * (3 * ln 2 - ln 7) + 2 / 3 * (3 * ln 3 - ln 7))
    with (ln (18 / 7)) by (rewrite ln_18_7; lra).
  rewrite exp_ln by lra. lra.
Qed.

Lemma roundf_eq (z : Z) (x : R) : IZR z - / 2 < x < IZR z + / 2 -> roundf x = IZR z.
Proof. intros H. unfold roundf. f_equal. apply round_int_eq. assumption. Qed.

Lemma list2_loads (l : list R) : List.length l = 2%nat -> l = [load l 0; load l 1].
Proof.
  destruct l as [|a [|b [|c l]]]; simpl; intros H; try discriminate. reflexivity.
Qed.

(** The boundary arrays of the two-band configuration, for any number of
    bins. *)
Lemma edges_100_2000 (F : Z) :
  let e := calcEdges 2 F 100 2000 in
  fCenter e = [roundf (500 / binSize F); roundf (1100 / binSize F)] /\
  eLo e = [roundf (100 / binSize F); roundf (500 / binSize F)] /\
  eHi e = [roundf (1100 / binSize F); 2000 / binSize F].
Proof.
  intros e. subst e.
  pose proof (calcEdges_lengths 2 F 100 2000 ltac:(lia)) as (Hc & Hl & Hh).
  change (Z.to_nat 2) with 2%nat in *.
  pose proof (calcEdges_center 2 F 100 2000 ltac:(lia) 0 ltac:(simpl; lia)) as C0.
  pose proof (calcEdges_center 2 F 100 2000 ltac:(lia) 1 ltac:(simpl; lia)) as C1.
  pose proof (calcEdges_lo0 2 F 100 2000 ltac:(lia)) as L0.
  pose proof (calcEdges_lo_S 2 F 100 2000 ltac:(lia) 0 ltac:(simpl; lia)) as L1.
  pose proof (calcEdges_hi 2 F 100 2000 ltac:(lia) 0 ltac:(simpl; lia)) as H0.
  pose proof (calcEdges_hi_last 2 F 100 2000 ltac:(lia)) as H1.
  change (Z.to_nat 2 - 1)%nat with 1%nat in H1.
  unfold center_at in *. rewrite mel_center_500 in C0, L1. rewrite mel_center_1100 in C1, H0.
  rewrite (list2_loads _ Hc), (list2_loads _ Hl), (list2_loads _ Hh).
  rewrite C0, C1, L0, L1, H0, H1. auto.
Qed.

(** ** Evaluating a weight row *)

Lemma bin_step_rise (lo c hi : R) (k : Z) (x : R) :
  lo < IZR k <= c -> bin_step lo c hi k x = (x, x + 1 / (c - lo)).
Proof.
  intros [H1 H2]. unfold bin_step. rewrite flt_true, fle_true by assumption. reflexivity.
Qed.

Lemma bin_step_fall (lo c hi : R) (k : Z) (x : R) :
  (IZR k <= lo \/ c < IZR k) -> c < IZR k <= hi ->
  bin_step lo c hi k x = (x, x - 1 / (hi - c)).
Proof.
  intros H [H1 H2]. unfold bin_step.
  rewrite (flt_true c), (fle_true _ hi) by assumption.
  destruct H as [H | H].
  - rewrite flt_false by assumption. reflexivity.
  - rewrite (fle_false _ c) by assumption. rewrite andb_false_r. reflexivity.
Qed.

Lemma bin_step_zero (lo c hi : R) (k : Z) (x : R) :
  (IZR k <= lo \/ c < IZR k) -> (IZR k <= c \/ hi < IZR k) ->
  bin_step lo c hi k x = (0, x).
Proof.
  intros H H'. unfold bin_step.
  assert (E1 : flt lo (IZR k) && fle (IZR k) c = false).
  { destruct H as [H | H];
      [rewrite flt_false by assumption | rewrite (fle_false _ c), andb_false_r by assumption];
      reflexivity. }
  assert (E2 : flt c (IZR k) && fle (IZR k) hi = false).
  { destruct H' as [H' | H'];
      [rewrite flt_false by assumption | rewrite (fle_false _ hi), andb_false_r by assumption];
      reflexivity. }
  rewrite E1, E2. reflexivity.
Qed.

Lemma calcRow_fst_S (lo c hi : R) (k k' : Z) (todo : nat) (x w x1 : R) :
  (k + 1)%Z = k' -> bin_step lo c hi k x = (w, x1) ->
  fst (calcRow lo c hi k (S todo) x) = w :: fst (calcRow lo c hi k' todo x1).
Proof.
  intros <- Hb. simpl. rewrite Hb.
  destruct (calcRow lo c hi (k + 1) todo x1). reflexivity.
Qed.

Ltac row_bin :=
  match goal with
  | |- context [fst (calcRow ?lo ?c ?hi ?k (S ?t) ?x)] =>
      let k' := eval vm_compute in (k + 1)%Z in
      first
        [ rewrite (calcRow_fst_S lo c hi k k' t x x (x + 1 / (c - lo)) eq_refl)
            by (apply bin_step_rise; lra)
        | rewrite (calcRow_fst_S lo c hi k k' t x x (x - 1 / (hi - c)) eq_refl)
            by (apply bin_step_fall; lra)
        | rewrite (calcRow_fst_S lo c hi k k' t x 0 x eq_refl)
            by (apply bin_step_zero; lra) ]
  end.

Ltac row_eval := repeat row_bin; cbn [calcRow fst].

(** Equality of two explicit rows, entry by entry. *)
Ltac row_eq := repeat (apply (f_equal2 (@cons R)); [lra|]); reflexivity.

(** *** 64-point transform: 32 bins of 8000/63 Hz *)

Lemma binSize_32 : binSize 32 = 8000 / 63.
Proof. unfold binSize, SAMPLE_RATE. lra. Qed.

Lemma edges_64 :
  let e := calcEdges 2 32 100 2000 in
  fCenter e = [4; 9] /\ eLo e = [1; 4] /\ eHi e = [9; 63 / 4].
Proof.
  pose proof (edges_100_2000 32) as H. cbv zeta in H |- *.
  destruct H as (Hc & Hl & Hh). rewrite binSize_32 in *.
  rewrite (roundf_eq 4 (500 / (8000 / 63))) in * by lra.
  rewrite (roundf_eq 9 (1100 / (8000 / 63))) in * by lra.
  rewrite (roundf_eq 1 (100 / (8000 / 63))) in * by lra.
  rewrite Hc, Hl, Hh. repeat split. do 2 f_equal. lra.
Qed.

Lemma row0_64 :
  row_of 32 (calcEdges 2 32 100 2000) 0
  = [0; 0; 0; 1 / 3; 2 / 3; 1; 4 / 5; 3 / 5; 2 / 5; 1 / 5;
     0; 0; 0; 0; 0; 0; 0; 0; 0; 0; 0; 0; 0; 0; 0; 0; 0; 0; 0; 0; 0; 0].
Proof.
  destruct edges_64 as (Hc & Hl & Hh). unfold row_of. rewrite Hc, Hl, Hh.
  unfold load. cbn [nth]. change (Z.to_nat 32) with 32%nat.
  row_eval. row_eq.
Qed.

(** ** Checked reads and writes *)

Lemma rd_of_nat {A : Type} (a : list A) (i : nat) : rd a (Z.of_nat i) = nth_error a i.
Proof.
  unfold rd. destruct (Z.ltb_spec (Z.of_nat i) 0); [lia|]. rewrite Nat2Z.id. reflexivity.
Qed.

Lemma wr_same {A : Type} (a : list A) (i : nat) (v : A) :
  nth_error a i = Some v -> wr a i v = Some a.
Proof.
  revert i. induction a as [|h t IH]; intros [|i] H; simpl in *; try discriminate.
  - injection H as ->. reflexivity.
  - rewrite (IH i H). reflexivity.
Qed.

Lemma wr_length {A : Type} (a a' : list A) (i : nat) (v : A) :
  wr a i v = Some a' -> List.length a' = List.length a.
Proof.
  revert i a'. induction a as [|h t IH]; intros [|i] a' H; simpl in *; try discriminate.
  - injection H as <-. reflexivity.
  - destruct (wr t i v) as [t'|] eqn:E; simpl in H; [|discriminate].
    injection H as <-. simpl. f_equal. apply (IH i). assumption.
Qed.

Lemma wr_nth {A : Type} (a a' : list A) (i j : nat) (v : A) :
  wr a i v = Some a' ->
  nth_error a' j = if (j =? i)%nat then Some v else nth_error a j.
Proof.
  revert i j a'. induction a as [|h t IH]; intros [|i] j a' H; simpl in *; try discriminate.
  - injection H as <-. destruct j; reflexivity.
  - destruct (wr t i v) as [t'|] eqn:E; simpl in H; [|discriminate].
    injection H as <-. destruct j as [|j]; [reflexivity|]. simpl. apply (IH i). assumption.
Qed.

Lemma wr_defined {A : Type} (a : list A) (i : nat) (v : A) :
  wr a i v <> None <-> (i < List.length a)%nat.
Proof.
  revert i. induction a as [|h t IH]; intros [|i]; simpl.
  - split; [congruence | lia].
  - split; [congruence | lia].
  - split; [lia | congruence].
  - specialize (IH i). destruct (wr t i v); simpl.
    + split; [intros _; apply -> Nat.succ_lt_mono; apply IH; congruence | congruence].
    + split; [congruence | intros H; apply Nat.succ_lt_mono in H; apply IH in H; congruence].
Qed.

Lemma len_nat (a : list R) : len a = Z.of_nat (List.length a).
Proof. reflexivity. Qed.

Lemma fwsZero_ok (buf : list R) (M : Z) :
  List.length buf = Z.to_nat M -> fwsZero_32f buf M = Some (repeat 0 (Z.to_nat M)).
Proof.
  intros H. unfold fwsZero_32f. destruct (Z.leb_spec M 0) as [HM | HM].
  - replace (Z.to_nat M) with 0%nat in * by lia.
    destruct buf; [reflexivity | discriminate].
  - rewrite len_nat, H. destruct (Z.leb_spec M (Z.of_nat (Z.to_nat M))); [|lia].
    rewrite skipn_all2 by lia. rewrite app_nil_r. reflexivity.
Qed.

Lemma mul_pointwise_length (a b : list R) :
  List.length (mul_pointwise a b) = Nat.min (List.length a) (List.length b).
Proof.
  revert b. induction a as [|x a IH]; intros [|y b]; simpl; try reflexivity.
  f_equal. apply IH.
Qed.

Lemma firstn_skipn_length (a : list R) (off n : Z) :
  (0 <= off)%Z -> (0 <= n)%Z -> (off + n <= len a)%Z ->
  List.length (firstn (Z.to_nat n) (skipn (Z.to_nat off) a)) = Z.to_nat n.
Proof.
  intros Ho Hn H. rewrite len_nat in H. rewrite length_firstn, length_skipn. lia.
Qed.

(** One round on a positive window that stays inside its blocks. *)
Lemma band_round (spectrum weights : list R) (loF fs M : Z) :
  (0 < fs <= M)%Z -> (0 <= loF)%Z ->
  (loF + fs <= len spectrum)%Z -> (loF + fs <= len weights)%Z ->
  exists frame1 filter1 filter2,
    fwsCopy_32f spectrum loF (repeat 0 (Z.to_nat M)) fs = Some frame1 /\
    fwsCopy_32f weights loF (repeat 0 (Z.to_nat M)) fs = Some filter1 /\
    fwsMul_32f_I frame1 filter1 fs = Some filter2 /\
    List.length frame1 = Z.to_nat M /\ List.length filter2 = Z.to_nat M /\
    (fs <= len filter2)%Z /\
    sum_list (firstn (Z.to_nat fs) filter2) = sparse_band spectrum weights loF fs.
Proof.
  intros Hfs Hlo Hs Hw.
  set (A := firstn (Z.to_nat fs) (skipn (Z.to_nat loF) spectrum)).
  set (B := firstn (Z.to_nat fs) (skipn (Z.to_nat loF) weights)).
  set (Zr := skipn (Z.to_nat fs) (repeat 0 (Z.to_nat M))).
  assert (HA : List.length A = Z.to_nat fs) by (apply firstn_skipn_length; lia).
  assert (HB : List.length B = Z.to_nat fs) by (apply firstn_skipn_length; lia).
  assert (HZ : List.length Zr = (Z.to_nat M - Z.to_nat fs)%nat).
  { unfold Zr. rewrite length_skipn, repeat_length. reflexivity. }
  assert (Hlen0 : len (repeat 0 (Z.to_nat M)) = M).
  { rewrite len_nat, repeat_length. lia. }
  exists (A ++ Zr), (B ++ Zr), (mul_pointwise A B ++ Zr).
  assert (Hcopy : forall src, (loF + fs <= len src)%Z ->
            fwsCopy_32f src loF (repeat 0 (Z.to_nat M)) fs
            = Some (firstn (Z.to_nat fs) (skipn (Z.to_nat loF) src) ++ Zr)).
  { intros src Hsrc. unfold fwsCopy_32f.
    destruct (Z.leb_spec fs 0); [lia|]. rewrite Hlen0.
    destruct (Z.leb_spec 0 loF); [|lia].
    destruct (Z.leb_spec (loF + fs) (len src)); [|lia].
    destruct (Z.leb_spec fs M); [|lia]. reflexivity. }
  assert (HfA : firstn (Z.to_nat fs) (A ++ Zr) = A).
  { rewrite <- HA. rewrite firstn_app, Nat.sub_diag, firstn_all. simpl.
    apply app_nil_r. }
  assert (HfB : firstn (Z.to_nat fs) (B ++ Zr) = B).
  { rewrite <- HB. rewrite firstn_app, Nat.sub_diag, firstn_all. simpl.
    apply app_nil_r. }
  assert (HsB : skipn (Z.to_nat fs) (B ++ Zr) = Zr).
  { rewrite <- HB. rewrite skipn_app, Nat.sub_diag, skipn_all. reflexivity. }
  assert (HP : List.length (mul_pointwise A B) = Z.to_nat fs).
  { rewrite mul_pointwise_length, HA, HB. apply Nat.min_id. }
  split; [apply Hcopy; assumption|].
  split; [apply Hcopy; assumption|]. split.
  - unfold fwsMul_32f_I.
    destruct (Z.leb_spec fs 0); [lia|].
    rewrite !len_nat, !length_app, HA, HB, HZ.
    destruct (Z.leb_spec fs (Z.of_nat (Z.to_nat fs + (Z.to_nat M - Z.to_nat fs)))); [|lia].
    simpl. rewrite HfA, HfB, HsB. reflexivity.
  - rewrite len_nat, !length_app, HA, HP, HZ.
    repeat split; try lia.
    rewrite <- HP at 1. rewrite firstn_app, Nat.sub_diag, firstn_all. simpl.
    rewrite app_nil_r. reflexivity.
Qed.

(** One round of the inner loop acts on the output matrix as [band_out]. *)
Lemma apply_band_sim (fb : MelFb) (stft : Stft) (M : Z) (w b : nat) (s : apply_state) :
  scratch_ok fb M s ->
  sim fb M (apply_band stft M w b s) (band_out fb stft M w b (output s)).
Proof.
  intros (Hself & Hf & Hr). unfold apply_band, band_out, band_value.
  rewrite !rd_of_nat, Hself.
  destruct (nth_error (fHi fb) b) as [hi|]; [|reflexivity].
  destruct (nth_error (fLo fb) b) as [lo|]; [|reflexivity].
  cbn [bind]. rewrite (fwsZero_ok _ M Hf), (fwsZero_ok _ M Hr). cbn [bind].
  destruct (nth_error (spectrogramm stft) w) as [spectrum|]; [|reflexivity].
  cbn [bind].
  set (fs := (ceil hi - floor lo)%Z). set (loF := floor lo).
  assert (Hz : List.length (repeat 0 (Z.to_nat M)) = Z.to_nat M) by apply repeat_length.
  destruct (nth_error (fbank fb) b) as [weights|]; cbn [bind].
  2:{ destruct (fwsCopy_32f spectrum loF (repeat 0 (Z.to_nat M)) fs); reflexivity. }
  destruct (Z.leb_spec fs 0) as [Hfs | Hfs].
  - unfold fwsCopy_32f, fwsMul_32f_I, fwsSum_32f, put_cell.
    destruct (Z.leb_spec fs 0); [|lia]. cbn [bind].
    destruct (nth_error (output s) w) as [outrow|] eqn:Ho; cbn [bind]; [|reflexivity].
    rewrite (wr_same _ _ _ Ho). cbn [bind sim].
    eexists. split; [reflexivity|]. split; [|reflexivity].
    repeat split; assumption.
  - match goal with |- context [if ?c then Some (Some _) else None] =>
      destruct c eqn:Hc end.
    + apply andb_prop in Hc. destruct Hc as [Hc H4].
      apply andb_prop in Hc. destruct Hc as [Hc H3].
      apply andb_prop in Hc. destruct Hc as [H1 H2].
      apply Z.leb_le in H1, H2, H3, H4.
      destruct (band_round spectrum weights loF fs M) as
        (frame1 & filter1 & filter2 & E1 & E2 & E3 & L1 & L2 & L3 & Hsum); try lia.
      rewrite E1. cbn [bind]. rewrite E2. cbn [bind]. rewrite E3. cbn [bind].
      unfold put_cell, fwsSum_32f.
      destruct (Z.leb_spec fs 0); [lia|].
      destruct (Z.leb_spec fs (len filter2)); [|lia]. rewrite Hsum.
      destruct (nth_error (output s) w) as [outrow|]; cbn [bind]; [|reflexivity].
      destruct (wr outrow b (sparse_band spectrum weights loF fs)) as [outrow'|];
        cbn [bind]; [|reflexivity].
      destruct (wr (output s) w outrow') as [out'|]; cbn [bind sim]; [|reflexivity].
      eexists. split; [reflexivity|]. split; [|reflexivity].
      repeat split; assumption.
    + cbn [sim]. unfold fwsCopy_32f.
      destruct (Z.leb_spec fs 0); [lia|].
      rewrite !len_nat, Hz. rewrite !len_nat in Hc.
      destruct (Z.leb_spec 0 loF); cbn [andb]; [|reflexivity].
      destruct (Z.leb_spec (loF + fs) (Z.of_nat (List.length spectrum)));
        cbn [andb]; [|reflexivity].
      destruct (Z.leb_spec fs (Z.of_nat (Z.to_nat M))); cbn [andb bind]; [|reflexivity].
      destruct (Z.leb_spec (loF + fs) (Z.of_nat (List.length weights)));
        cbn [andb bind]; [|reflexivity].
      exfalso. destruct (Z.leb_spec fs M); [|lia].
      destruct (Z.leb_spec 0 loF); [|lia].
      destruct (Z.leb_spec (loF + fs) (Z.of_nat (List.length spectrum))); [|lia].
      destruct (Z.leb_spec (loF + fs) (Z.of_nat (List.length weights))); [|lia].
      discriminate.
Qed.

(** A counted loop of the stateful code against the loop on the matrix. *)
Lemma for_loop_sim (fb : MelFb) (M : Z)
  (body : nat -> apply_state -> option apply_state)
  (pure : nat -> list (list R) -> option (list (list R))) (idx : list nat) :
  (forall i s, scratch_ok fb M s -> sim fb M (body i s) (pure i (output s))) ->
  forall s, scratch_ok fb M s ->
    sim fb M (for_loop body idx s) (for_loop pure idx (output s)).
Proof.
  intros Hbody. induction idx as [|i idx IH]; intros s Hs; cbn [for_loop].
  - cbn [sim]. exists s. auto.
  - specialize (Hbody i s Hs). destruct (pure i (output s)) as [o'|]; cbn [sim bind] in *.
    + destruct Hbody as (s' & -> & Hs' & <-). cbn [bind]. apply IH. assumption.
    + rewrite Hbody. reflexivity.
Qed.

(** [applyMelFB] never changes the object, and what it does to the output
    matrix is [apply_out]. *)
Lemma applyMelFB_out (fb : MelFb) (out : list (list R)) (stft : Stft) (hiLast loLast : R) :
  rd (fHi fb) (numFilterBanks fb - 1) = Some hiLast ->
  rd (fLo fb) (numFilterBanks fb - 1) = Some loLast ->
  applyMelFB fb out stft
  = (o' <- apply_out fb stft (ceil hiLast - floor loLast) out ;; Some (fb, o')).
Proof.
  intros Hh Hl. unfold applyMelFB. rewrite Hh, Hl. cbn [bind].
  set (M := (ceil hiLast - floor loLast)%Z).
  set (s0 := mkApply fb (fwsMalloc_32f M) (fwsMalloc_32f M) out).
  assert (Hs0 : scratch_ok fb M s0).
  { repeat split; apply fwsMalloc_length. }
  pose proof (for_loop_sim fb M
                (fun window => for_loop (apply_band stft M window)
                                        (seq 0 (Z.to_nat (numFilterBanks fb))))
                (fun window => for_loop (band_out fb stft M window)
                                        (seq 0 (Z.to_nat (numFilterBanks fb))))
                (seq 0 (Z.to_nat (NoOfWindows stft)))) as Hsim.
  specialize (Hsim (fun w s Hs => for_loop_sim fb M _ _ _
                        (fun b s' Hs' => apply_band_sim fb stft M w b s' Hs') s Hs) s0 Hs0).
  change (output s0) with out in Hsim. fold (apply_out fb stft M out) in Hsim.
  destruct (apply_out fb stft M out) as [o'|]; cbn [sim bind] in *.
  - destruct Hsim as (s' & -> & (Hself & _) & <-). cbn [bind]. rewrite Hself. reflexivity.
  - rewrite Hsim. reflexivity.
Qed.

(** ** Overwriting transformers of the output matrix *)

Lemma same_shape_row (o o' : list (list R)) (i : nat) (row : list R) :
  same_shape o o' -> nth_error o i = Some row ->
  exists row', nth_error o' i = Some row' /\ List.length row' = List.length row.
Proof.
  unfold same_shape. intros Hs Hr.
  assert (H : nth_error (map (@List.length R) o') i = Some (List.length row)).
  { rewrite <- Hs, nth_error_map, Hr. reflexivity. }
  rewrite nth_error_map in H. destruct (nth_error o' i) as [row'|]; [|discriminate].
  exists row'. split; [reflexivity|]. simpl in H. congruence.
Qed.

Lemma cell_ext (o o' : list (list R)) :
  same_shape o o' -> (forall i j, cell o i j = cell o' i j) -> o = o'.
Proof.
  intros Hs Hc. apply nth_error_ext. intros i.
  destruct (nth_error o i) as [row|] eqn:Hr.
  - destruct (same_shape_row o o' i row Hs Hr) as (row' & Hr' & Hl).
    rewrite Hr'. f_equal. apply nth_error_ext. intros j.
    specialize (Hc i j). unfold cell in Hc. rewrite Hr, Hr' in Hc. exact Hc.
  - apply nth_error_None in Hr. symmetry. apply nth_error_None.
    assert (Hl : List.length o' = List.length o).
    { unfold same_shape in Hs. apply (f_equal (@List.length nat)) in Hs.
      rewrite !length_map in Hs. congruence. }
    lia.
Qed.

Lemma wr_map {A B : Type} (f : A -> B) (a a' : list A) (i : nat) (u v : A) :
  wr a i v = Some a' -> nth_error a i = Some u -> f v = f u -> map f a' = map f a.
Proof.
  revert i a'. induction a as [|h t IH]; intros [|i] a' Hw Hn Hf; simpl in *; try discriminate.
  - injection Hw as <-. injection Hn as ->. simpl. congruence.
  - destruct (wr t i v) as [t'|] eqn:E; simpl in Hw; [|discriminate].
    injection Hw as <-. simpl. f_equal. apply (IH i); assumption.
Qed.

Lemma put_cell_none (o : list (list R)) (w b : nat) :
  put_cell o w b None = match nth_error o w with Some _ => Some o | None => None end.
Proof. unfold put_cell. destruct (nth_error o w); reflexivity. Qed.

Lemma put_cell_some (o o' : list (list R)) (w b : nat) (v : R) :
  put_cell o w b (Some v) = Some o' ->
  same_shape o o' /\
  forall i j, cell o' i j = if ((i =? w) && (j =? b))%nat then Some v else cell o i j.
Proof.
  unfold put_cell. destruct (nth_error o w) as [row|] eqn:Hr; [|discriminate].
  cbn [bind]. destruct (wr row b v) as [row'|] eqn:Hrow; [|discriminate].
  cbn [bind]. intros Ho. split.
  - unfold same_shape. symmetry. apply (wr_map _ _ _ _ _ _ Ho Hr).
    apply (wr_length _ _ _ _ Hrow).
  - intros i j. unfold cell. rewrite (wr_nth _ _ _ i _ Ho).
    destruct (Nat.eqb_spec i w) as [-> | Hne]; cbn [bind andb].
    + rewrite (wr_nth _ _ _ j _ Hrow), Hr. cbn [bind].
      destruct (j =? b)%nat; reflexivity.
    + reflexivity.
Qed.

Lemma put_cell_defined (o : list (list R)) (w b : nat) (ov : option R) :
  put_cell o w b ov <> None <->
  exists row, nth_error o w = Some row /\
              (ov <> None -> (b < List.length row)%nat).
Proof.
  unfold put_cell. destruct (nth_error o w) as [row|] eqn:Hr; cbn [bind].
  - destruct ov as [v|].
    + split.
      * intros H. exists row. split; [reflexivity|]. intros _.
        apply (wr_defined row b v). intros E. rewrite E in H. apply H. reflexivity.
      * intros (row0 & [= <-] & Hb). specialize (Hb ltac:(discriminate)).
        apply (wr_defined row b v) in Hb.
        destruct (wr row b v) as [row'|]; [|congruence]. cbn [bind].
        apply wr_defined. apply nth_error_Some. congruence.
    + split; [intros _; exists row; split; [reflexivity | congruence] | discriminate].
  - split; [congruence | intros (row & H & _); discriminate].
Qed.

Lemma overwrites_put_cell (w b : nat) (ov : option R) :
  overwrites (fun o => put_cell o w b ov).
Proof.
  exists (fun i j => if ((i =? w) && (j =? b))%nat then ov else None). split.
  - intros o o' H. destruct ov as [v|].
    + apply put_cell_some in H. destruct H as [Hs Hc]. split; [exact Hs|].
      intros i j. rewrite Hc. destruct ((i =? w) && (j =? b))%nat; reflexivity.
    + rewrite put_cell_none in H. destruct (nth_error o w); [|discriminate].
      injection H as <-. split; [reflexivity|].
      intros i j. destruct ((i =? w) && (j =? b))%nat; reflexivity.
  - intros o1 o2 Hs H. apply put_cell_defined in H. destruct H as (row & Hr & Hb).
    apply put_cell_defined.
    destruct (same_shape_row o1 o2 w row Hs Hr) as (row' & Hr' & Hl).
    exists row'. split; [assumption|]. rewrite Hl. assumption.
Qed.

Lemma overwrites_fail : overwrites (fun _ => None).
Proof.
  exists (fun _ _ => None). split; [discriminate | intros ? ? _ H; exact H].
Qed.

Lemma overwrites_band_out (fb : MelFb) (stft : Stft) (M : Z) (w b : nat) :
  overwrites (band_out fb stft M w b).
Proof.
  unfold band_out. destruct (band_value fb stft M w b) as [ov|]; cbn [bind].
  - apply overwrites_put_cell.
  - apply overwrites_fail.
Qed.

Lemma overwrites_for_loop (pure : nat -> list (list R) -> option (list (list R)))
  (idx : list nat) :
  (forall i, overwrites (pure i)) -> overwrites (for_loop pure idx).
Proof.
  intros Hp. induction idx as [|i idx IH].
  - exists (fun _ _ => None). split.
    + intros o o' [= <-]. split; reflexivity.
    + intros; discriminate.
  - destruct (Hp i) as (m1 & Hm1 & Hu1). destruct IH as (m2 & Hm2 & Hu2).
    exists (fun a b => match m2 a b with Some c => Some c | None => m1 a b end). split.
    + intros o o' H. cbn [for_loop] in H.
      destruct (pure i o) as [o1|] eqn:E1; [|discriminate]. cbn [bind] in H.
      destruct (Hm1 _ _ E1) as [Hs1 Hc1]. destruct (Hm2 _ _ H) as [Hs2 Hc2].
      split; [unfold same_shape in *; congruence|].
      intros a b. rewrite Hc2, Hc1. destruct (m2 a b); reflexivity.
    + intros o1 o2 Hs H. cbn [for_loop] in *.
      destruct (pure i o1) as [o1'|] eqn:E1; [|contradiction]. cbn [bind] in H.
      assert (E2 : pure i o2 <> None) by (apply (Hu1 o1 o2 Hs); congruence).
      destruct (pure i o2) as [o2'|] eqn:E2'; [|contradiction]. cbn [bind].
      apply (Hu2 o1' o2'); [|assumption].
      destruct (Hm1 _ _ E1) as [Hs1 _]. destruct (Hm1 _ _ E2') as [Hs2 _].
      unfold same_shape in *. congruence.
Qed.

(** Running an overwriting transformer on its own result changes nothing. *)
Lemma overwrites_idem (T : list (list R) -> option (list (list R))) (o o' : list (list R)) :
  overwrites T -> T o = Some o' -> T o' = Some o'.
Proof.
  intros (m & Hm & Hu) H. destruct (Hm _ _ H) as [Hs Hc].
  assert (Hd : T o' <> None) by (apply (Hu o o' Hs); congruence).
  destruct (T o') as [o''|] eqn:E; [|contradiction].
  destruct (Hm _ _ E) as [Hs' Hc']. f_equal. symmetry. apply cell_ext; [assumption|].
  intros i j. rewrite Hc', Hc. destruct (m i j); reflexivity.
Qed.

Lemma overwrites_apply_out (fb : MelFb) (stft : Stft) (M : Z) :
  overwrites (apply_out fb stft M).
Proof.
  unfold apply_out. apply overwrites_for_loop. intros w.
  apply overwrites_for_loop. intros b. apply overwrites_band_out.
Qed.

(** C10: a call of [applyMelFB] that stays inside its blocks leaves the
    object as it was, and a second call with the same object, the same
    spectrogram and the same output matrix (now holding the result of the
    first call) returns the same object and writes the same values: the
    output matrix is again the one the first call left. *)
Theorem applyMelFB_idempotent (fb fb' : MelFb) (out out' : list (list R)) (stft : Stft) :
  applyMelFB fb out stft = Some (fb', out') ->
  fb' = fb /\ applyMelFB fb' out' stft = Some (fb', out').
Proof.
  intros H.
  destruct (rd (fHi fb) (numFilterBanks fb - 1)) as [hiLast|] eqn:Hh.
  2:{ unfold applyMelFB in H. rewrite Hh in H. discriminate. }
  destruct (rd (fLo fb) (numFilterBanks fb - 1)) as [loLast|] eqn:Hl.
  2:{ unfold applyMelFB in H. rewrite Hh, Hl in H. discriminate. }
  rewrite (applyMelFB_out fb out stft hiLast loLast Hh Hl) in H.
  destruct (apply_out fb stft (ceil hiLast - floor loLast) out) as [o1|] eqn:E;
    [|discriminate].
  cbn [bind] in H. injection H as <- <-. split; [reflexivity|].
  rewrite (applyMelFB_out fb o1 stft hiLast loLast Hh Hl).
  rewrite (overwrites_idem _ out o1 (overwrites_apply_out fb stft _) E). reflexivity.
Qed.

(** ** The worked example evaluated *)

Lemma row1_64 :
  row_of 32 (calcEdges 2 32 100 2000) 1
  = [0; 0; 0; 0; 0; 0; 1 / 5; 2 / 5; 3 / 5; 4 / 5; 1;
     23 / 27; 19 / 27; 15 / 27; 11 / 27; 7 / 27;
     0; 0; 0; 0; 0; 0; 0; 0; 0; 0; 0; 0; 0; 0; 0; 0].
Proof.
  destruct edges_64 as (Hc & Hl & Hh). unfold row_of. rewrite Hc, Hl, Hh.
  unfold load. cbn [nth]. change (Z.to_nat 32) with 32%nat.
  row_eval. row_eq.
Qed.

Lemma MelFb_new_64 : MelFb_new 64 2 100 2000 = Built fb64.
Proof. rewrite MelFb_new_built by lia. reflexivity. Qed.

Lemma fb64_edges :
  fLo fb64 = [1; 4] /\ centerBins fb64 = [4; 9] /\ fHi fb64 = [9; 63 / 4].
Proof. destruct edges_64 as (Hc & Hl & Hh). repeat split; assumption. Qed.

Lemma fb64_fbank :
  fbank fb64 = [row_of 32 (calcEdges 2 32 100 2000) 0;
                row_of 32 (calcEdges 2 32 100 2000) 1].
Proof. unfold fb64, built. cbn [fbank]. rewrite calcWeights_map. reflexivity. Qed.

Lemma floor_IZR (z : Z) : floor (IZR z) = z.
Proof. apply ZfloorZ. Qed.

Lemma ceil_IZR (z : Z) : ceil (IZR z) = z.
Proof. apply Zceil_eq. lra. Qed.

Lemma ceil_63_4 : ceil (63 / 4) = 16%Z.
Proof. apply Zceil_eq. lra. Qed.

Ltac zbool :=
  repeat match goal with
    | |- context [(?a <=? ?b)%Z] =>
        let v := eval vm_compute in (a <=? b)%Z in change (a <=? b)%Z with v
    end.

Lemma band_value_64_0 : band_value fb64 ones32 12 0 0 = Some (Some (19 / 5)).
Proof.
  destruct fb64_edges as (Hl & _ & Hh).
  unfold band_value. rewrite Hl, Hh, fb64_fbank, row0_64.
  cbn [nth_error bind spectrogramm ones32].
  rewrite (ceil_IZR 9), (floor_IZR 1). zbool. cbn [andb].
  do 2 f_equal. unfold sparse_band.
  change (Z.to_nat (9 - 1)) with 8%nat. change (Z.to_nat 1) with 1%nat.
  cbn [repeat firstn skipn mul_pointwise sum_list fold_right]. lra.
Qed.

Lemma band_value_64_1 : band_value fb64 ones32 12 0 1 = Some (Some (52 / 9)).
Proof.
  destruct fb64_edges as (Hl & _ & Hh).
  unfold band_value. rewrite Hl, Hh, fb64_fbank, row1_64.
  cbn [nth_error bind spectrogramm ones32].
  rewrite ceil_63_4, (floor_IZR 4). zbool. cbn [andb].
  do 2 f_equal. unfold sparse_band.
  change (Z.to_nat (16 - 4)) with 12%nat. change (Z.to_nat 4) with 4%nat.
  cbn [repeat firstn skipn mul_pointwise sum_list fold_right]. lra.
Qed.

(** The call on the all-ones frame: band 0 receives 19/5, band 1 receives
    52/9. *)
Lemma applyMelFB_64 (a b : R) :
  applyMelFB fb64 [[a; b]] ones32 = Some (fb64, [[19 / 5; 52 / 9]]).
Proof.
  destruct fb64_edges as (Hl & _ & Hh).
  rewrite (applyMelFB_out fb64 _ ones32 (63 / 4) 4)
    by (first [rewrite Hh | rewrite Hl]; reflexivity).
  rewrite ceil_63_4, (floor_IZR 4). change (16 - 4)%Z with 12%Z.
  unfold apply_out. cbn [NoOfWindows ones32].
  change (Z.to_nat 1) with 1%nat. change (Z.to_nat (numFilterBanks fb64)) with 2%nat.
  cbn [seq for_loop]. unfold band_out.
  rewrite band_value_64_0. cbn [bind put_cell nth_error wr].
  rewrite band_value_64_1. cbn [bind put_cell nth_error wr]. reflexivity.
Qed.

(** The full-width product of the same frame with the weight row of band 0
    is 4. *)
Lemma dense_64_0 :
  dense_band fb64 (repeat 1 32%nat) (row_of 32 (calcEdges 2 32 100 2000) 0) = 4.
Proof.
  rewrite row0_64. unfold dense_band. change (Z.to_nat (fbSize fb64)) with 32%nat.
  cbn [repeat firstn mul_pointwise sum_list fold_right]. lra.
Qed.

(** ** Order of the band boundaries *)

Section EdgeOrder.
Variables (N F : Z) (lo hi : R).
Hypothesis N_pos : (0 < N)%Z.
Hypothesis F_pos : (1 <= F)%Z.
Hypothesis lo_nonneg : 0 <= lo.
Hypothesis lo_le_hi : lo <= hi.

Local Abbreviation n := (Z.to_nat N).
Local Abbreviation bs := (binSize F).
Local Abbreviation delta := (melDelta N lo hi).
Local Abbreviation ctr := (center_at bs delta (linToMel lo)).

Lemma binSize_pos : 0 < bs.
Proof.
  unfold binSize, SAMPLE_RATE. apply IZR_le in F_pos.
  apply Rdiv_lt_0_compat; lra.
Qed.

Lemma melDelta_nonneg : 0 <= delta.
Proof.
  rewrite melDelta_eq. pose proof (linToMel_le lo hi ltac:(lra) lo_le_hi).
  apply IZR_lt in N_pos. apply Rmult_le_pos; [lra|].
  left. apply Rinv_0_lt_compat. lra.
Qed.

Lemma quot_le (x y : R) : x <= y -> x / bs <= y / bs.
Proof.
  intros H. pose proof binSize_pos. unfold Rdiv.
  apply Rmult_le_compat_r; [left; apply Rinv_0_lt_compat; assumption | assumption].
Qed.

Lemma center_at_mono (i j : nat) : (i <= j)%nat -> ctr i <= ctr j.
Proof.
  intros Hij. unfold center_at. apply roundf_le, quot_le, melToLin_le.
  pose proof melDelta_nonneg. apply le_INR in Hij. nra.
Qed.


End EdgeOrder.



(** C7 (amended): in an object built from [0 <= locut <= hicut] with at
    least one bin, the centre bins never decrease with the band index;
    hence [fLo[i] <= fCenter[i]] for every band but the first and
    [fCenter[i] <= fHi[i]] for every band but the last.  No inequality
    need be strict. *)
Theorem edges_ordered (fftSize numBanks locut hicut : Z) (fb : MelFb) :
  MelFb_new fftSize numBanks locut hicut = Built fb ->
  (0 <= locut <= hicut)%Z ->
  (1 <= fbSize fb)%Z ->
  let n := Z.to_nat numBanks in
  numFilterBanks fb = numBanks /\
  loCut fb = IZR locut /\ hiCut fb = IZR hicut /\
  List.length (fLo fb) = n /\ List.length (fHi fb) = n /\
  List.length (centerBins fb) = n /\
  (forall i j, (i <= j < n)%nat -> load (centerBins fb) i <= load (centerBins fb) j) /\
  (forall i, (S i < n)%nat ->
     load (fLo fb) (S i) <= load (centerBins fb) (S i) /\
     load (centerBins fb) i <= load (fHi fb) i).
Proof.
  intros Hb [Hlo Hhi] HF n. subst n.
  apply MelFb_new_inv in Hb. destruct Hb as (_ & _ & HN & _ & ->).
  cbn [built fbSize] in HF.
  set (F := fbSize_of (Z.log2_up (round24 fftSize))) in *.
  pose proof (calcEdges_lengths numBanks F (IZR locut) (IZR hicut) HN) as (Hc & Hl & Hh).
  unfold centerBins. cbn [built numFilterBanks fbSize loCut hiCut fLo fHi].
  assert (Hlo' : 0 <= IZR locut) by (apply IZR_le; assumption).
  assert (Hhi' : IZR locut <= IZR hicut) by (apply IZR_le; assumption).
  split; [reflexivity|]. split; [reflexivity|]. split; [reflexivity|].
  split; [exact Hl|]. split; [exact Hh|]. split; [exact Hc|].
  split.
  - intros i j Hij. rewrite !calcEdges_center by lia.
    apply center_at_mono; try assumption. lia.
  - intros i Hi.
    rewrite calcEdges_lo_S, calcEdges_hi, !calcEdges_center by lia.
    split; apply center_at_mono; auto.
Qed.

Lemma edges_ordered_witness :
  exists fb, MelFb_new 64 2 100 2000 = Built fb /\
    numFilterBanks fb = 2%Z /\ loCut fb = 100 /\ hiCut fb = 2000 /\
    load (centerBins fb) 0 = 4 /\ load (centerBins fb) 1 = 9 /\
    load (centerBins fb) 0 <= load (centerBins fb) 1 /\
    load (fLo fb) 1 <= load (centerBins fb) 1 /\
    load (centerBins fb) 0 <= load (fHi fb) 0.
Proof.
  exists fb64. split; [exact MelFb_new_64|].
  assert (HF : (1 <= fbSize fb64)%Z) by (change (1 <= 32)%Z; lia).
  destruct (edges_ordered 64 2 100 2000 fb64 MelFb_new_64 ltac:(lia) HF)
    as (HN & Hlo & Hhi & _ & _ & _ & Hmono & Hadj).
  destruct (Hadj 0%nat ltac:(simpl; lia)) as (A1 & A2).
  destruct fb64_edges as (_ & Hc & _).
  split; [exact HN|]. split; [exact Hlo|]. split; [exact Hhi|].
  split; [rewrite Hc; reflexivity|]. split; [rewrite Hc; reflexivity|].
  split; [apply Hmono; simpl; lia|].
  split; [exact A1 | exact A2].
Defined.

(** *** Configurations whose boundaries are not strictly ordered *)

Lemma binSize_4 : binSize 4 = 8000 / 7.
Proof. unfold binSize, SAMPLE_RATE. lra. Qed.

Lemma binSize_16 : binSize 16 = 8000 / 31.
Proof. unfold binSize, SAMPLE_RATE. lra. Qed.

(** One band between 300 Hz and 510 Hz: [1 + f/700] runs from 10/7 to
    121/70, the centre lies at 11/7, that is 400 Hz. *)
Lemma mel_center_400 :
  melToLin (linToMel 300 + (INR 0 + 1) * melDelta 1 300 510) = 400.
Proof.
  unfold melDelta. simpl (INR 0). simpl (1 + 1)%Z.
  replace (linToMel 300 + (0 + 1) * ((linToMel 510 - linToMel 300) / 2))
    with (linToMel 300 + / 2 * (linToMel 510 - linToMel 300)) by lra.
  rewrite melToLin_between by lra.
  replace (1 + 300 / 700) with (10 / 7) by lra.
  replace (1 + 510 / 700) with (11 * 11 / (7 * 10)) by lra.
  replace ((1 - / 2) * ln (10 / 7) + / 2 * ln (11 * 11 / (7 * 10))) with (ln (11 / 7)).
  - rewrite exp_ln by lra. lra.
  - rewrite !ln_quot, !ln_mult by lra. lra.
Qed.

(** The two bands of the worked configuration with the cuts exchanged. *)
Lemma mel_center_rev (i : nat) :
  (i < 2)%nat ->
  melToLin (linToMel 2000 + (INR i + 1) * melDelta 2 2000 100)
  = if (i =? 0)%nat then 1100 else 500.
Proof.
  intros Hi. unfold melDelta. simpl (2 + 1)%Z.
  destruct i as [|[|i]]; [| |lia]; cbn [Nat.eqb].
  - simpl (INR 0).
    replace (linToMel 2000 + (0 + 1) * ((linToMel 100 - linToMel 2000) / 3))
      with (linToMel 2000 + / 3 * (linToMel 100 - linToMel 2000)) by lra.
    rewrite melToLin_between by lra. rewrite ln_lo_100, ln_hi_2000.
    replace ((1 - / 3) * (3 * ln 3 - ln 7) + / 3 * (3 * ln 2 - ln 7))
      with (ln (18 / 7)) by (rewrite ln_18_7; lra).
    rewrite exp_ln by lra. lra.
  - simpl (INR 1).
    replace (linToMel 2000 + (1 + 1) * ((linToMel 100 - linToMel 2000) / 3))
      with (linToMel 2000 + 2 / 3 * (linToMel 100 - linToMel 2000)) by lra.
    rewrite melToLin_between by lra. rewrite ln_lo_100, ln_hi_2000.
    replace ((1 - 2 / 3) * (3 * ln 3 - ln 7) + 2 / 3 * (3 * ln 2 - ln 7))
      with (ln (12 / 7)) by (rewrite ln_12_7; lra).
    rewrite exp_ln by lra. lra.
Qed.

Lemma binSize_2 : binSize 2 = 8000 / 3.
Proof. unfold binSize, SAMPLE_RATE. lra. Qed.

(** Against C7 as stated: four accepted configurations.  With four bins
    the lower boundary and the centre of band 0 fall into the same bin.
    With one band between 300 Hz and 510 Hz on 16 bins the centre 1.55 is
    rounded up to 2, above the upper boundary 1.97625, which is not
    rounded.  With [loCut] above [hiCut] the centre bins decrease.  With
    two bins both centres fall into bin 0. *)
Lemma edges_not_strict :
  (exists fb, MelFb_new 8 2 100 2000 = Built fb /\
     load (fLo fb) 0 = 0 /\ load (centerBins fb) 0 = 0 /\
     ~ load (fLo fb) 0 < load (centerBins fb) 0) /\
  (exists fb, MelFb_new 32 1 300 510 = Built fb /\
     load (centerBins fb) 0 = 2 /\ load (fHi fb) 0 = 510 / (8000 / 31) /\
     ~ load (centerBins fb) 0 < load (fHi fb) 0) /\
  (exists fb, MelFb_new 64 2 2000 100 = Built fb /\
     load (centerBins fb) 0 = 9 /\ load (centerBins fb) 1 = 4 /\
     ~ load (centerBins fb) 0 < load (centerBins fb) 1) /\
  (exists fb, MelFb_new 4 2 100 2000 = Built fb /\
     load (centerBins fb) 0 = 0 /\ load (centerBins fb) 1 = 0 /\
     ~ load (centerBins fb) 0 < load (centerBins fb) 1).
Proof.
  split; [|split; [|split]].
  - eexists. split; [apply MelFb_new_built; lia|].
    change (2 ^ Z.log2_up 8 / 2)%Z with 4%Z.
    unfold centerBins. cbn [built numFilterBanks fbSize loCut hiCut fLo fHi].
    pose proof (edges_100_2000 4) as H. cbv zeta in H. destruct H as (Hc & Hl & _).
    rewrite Hc, Hl. unfold load. cbn [nth]. rewrite binSize_4.
    rewrite (roundf_eq 0 (100 / (8000 / 7))), (roundf_eq 0 (500 / (8000 / 7))) by lra.
    repeat split; lra.
  - eexists. split; [apply MelFb_new_built; lia|].
    change (2 ^ Z.log2_up 32 / 2)%Z with 16%Z.
    unfold centerBins. cbn [built numFilterBanks fbSize loCut hiCut fLo fHi].
    rewrite (calcEdges_center 1 16 300 510 ltac:(lia) 0 ltac:(simpl; lia)).
    pose proof (calcEdges_hi_last 1 16 300 510 ltac:(lia)) as Hh.
    change (Z.to_nat 1 - 1)%nat with 0%nat in Hh. rewrite Hh.
    unfold center_at. rewrite mel_center_400, binSize_16.
    rewrite (roundf_eq 2 (400 / (8000 / 31))) by lra.
    repeat split; lra.
  - eexists. split; [apply MelFb_new_built; lia|].
    change (2 ^ Z.log2_up 64 / 2)%Z with 32%Z.
    unfold centerBins. cbn [built numFilterBanks fbSize loCut hiCut fLo fHi].
    rewrite (calcEdges_center 2 32 2000 100 ltac:(lia) 0 ltac:(simpl; lia)).
    rewrite (calcEdges_center 2 32 2000 100 ltac:(lia) 1 ltac:(simpl; lia)).
    unfold center_at. rewrite !mel_center_rev by lia. cbn [Nat.eqb]. rewrite binSize_32.
    rewrite (roundf_eq 9 (1100 / (8000 / 63))), (roundf_eq 4 (500 / (8000 / 63))) by lra.
    repeat split; lra.
  - eexists. split; [apply MelFb_new_built; lia|].
    change (2 ^ Z.log2_up 4 / 2)%Z with 2%Z.
    unfold centerBins. cbn [built numFilterBanks fbSize loCut hiCut fLo fHi].
    pose proof (edges_100_2000 2) as H. cbv zeta in H. destruct H as (Hc & _ & _).
    rewrite Hc. unfold load. cbn [nth]. rewrite binSize_2.
    rewrite (roundf_eq 0 (500 / (8000 / 3))), (roundf_eq 0 (1100 / (8000 / 3))) by lra.
    repeat split; lra.
Qed.

Lemma applyMelFB_idempotent_witness :
  applyMelFB fb64 [[0; 0]] ones32 = Some (fb64, [[19 / 5; 52 / 9]]) /\
  applyMelFB fb64 [[19 / 5; 52 / 9]] ones32 = Some (fb64, [[19 / 5; 52 / 9]]).
Proof.
  split; [apply applyMelFB_64|].
  apply (applyMelFB_idempotent fb64 fb64 [[0; 0]] _ ones32 (applyMelFB_64 0 0)).
Defined.

(** ** The rising edge in general

    Whenever the lower boundary and the centre of a band are whole bins
    [zl < zc] inside the row, the accumulator reaches 1 only after the
    centre bin has been stored: the weight at the centre bin is
    [1 - 1/(zc - zl)]. *)

Lemma calcRow_app (lo c hi : R) (a b : nat) :
  forall k x,
    calcRow lo c hi k (a + b) x
    = (fst (calcRow lo c hi k a x)
         ++ fst (calcRow lo c hi (k + Z.of_nat a) b (snd (calcRow lo c hi k a x))),
       snd (calcRow lo c hi (k + Z.of_nat a) b (snd (calcRow lo c hi k a x)))).
Proof.
  induction a as [|a IH]; intros k x.
  - cbn [Nat.add calcRow fst snd app Z.of_nat]. rewrite Z.add_0_r.
    destruct (calcRow lo c hi k b x). reflexivity.
  - cbn [Nat.add calcRow]. destruct (bin_step lo c hi k x) as [w x1].
    rewrite IH. replace (k + Z.of_nat (S a))%Z with (k + 1 + Z.of_nat a)%Z by lia.
    destruct (calcRow lo c hi (k + 1) a x1) as [row x2]. reflexivity.
Qed.

Lemma calcRow_idle (lo c hi : R) (a : nat) :
  forall k x,
    (forall j, (k <= j < k + Z.of_nat a)%Z -> IZR j <= lo /\ IZR j <= c) ->
    snd (calcRow lo c hi k a x) = x /\
    List.length (fst (calcRow lo c hi k a x)) = a.
Proof.
  induction a as [|a IH]; intros k x H; [split; reflexivity|].
  cbn [calcRow]. destruct (H k ltac:(lia)) as [H1 H2].
  rewrite bin_step_zero by (left; assumption).
  destruct (IH (k + 1)%Z x) as [Hx Hl]; [intros j Hj; apply H; lia|].
  destruct (calcRow lo c hi (k + 1) a x) as [row x2]. cbn [fst snd] in *.
  split; [assumption | simpl; congruence].
Qed.

Lemma calcRow_rising (lo c hi : R) (a : nat) :
  forall k x,
    (forall j, (k <= j < k + Z.of_nat a)%Z -> lo < IZR j <= c) ->
    forall i, (i < a)%nat ->
      nth_error (fst (calcRow lo c hi k a x)) i = Some (x + INR i * (1 / (c - lo))).
Proof.
  induction a as [|a IH]; intros k x H i Hi; [lia|].
  cbn [calcRow]. rewrite bin_step_rise by (apply H; lia).
  specialize (IH (k + 1)%Z (x + 1 / (c - lo)) ltac:(intros j Hj; apply H; lia)).
  destruct (calcRow lo c hi (k + 1) a (x + 1 / (c - lo))) as [row x2]. cbn [fst] in *.
  destruct i as [|i]; cbn [nth_error].
  - f_equal. simpl. lra.
  - rewrite IH by lia. f_equal. rewrite S_INR. lra.
Qed.

Lemma centre_weight (zl zc : Z) (hi : R) (todo : nat) :
  (0 <= zl < zc)%Z -> (zc < Z.of_nat todo)%Z ->
  nth_error (fst (calcRow (IZR zl) (IZR zc) hi 0 todo 0)) (Z.to_nat zc)
  = Some (1 - 1 / (IZR zc - IZR zl)).
Proof.
  intros Hz Ht.
  set (a := Z.to_nat (zl + 1)). set (b := Z.to_nat (zc - zl)).
  set (r := (todo - (a + b))%nat).
  replace todo with (a + (b + r))%nat by lia.
  rewrite calcRow_app. cbn [fst].
  destruct (calcRow_idle (IZR zl) (IZR zc) hi a 0 0) as [Hx Hl].
  { intros j Hj. split; apply IZR_le; lia. }
  rewrite Hx, calcRow_app. cbn [fst].
  rewrite nth_error_app2 by lia. rewrite Hl.
  rewrite nth_error_app1.
  2:{ rewrite calcRow_length. lia. }
  rewrite (calcRow_rising (IZR zl) (IZR zc) hi b).
  - f_equal. replace (Z.to_nat zc - a)%nat with (Z.to_nat (zc - zl - 1)) by lia.
    rewrite INR_IZR_INZ, Z2Nat.id by lia. rewrite !minus_IZR.
    assert (IZR zl < IZR zc) by (apply IZR_lt; lia). field. lra.
  - intros j Hj. split; [apply IZR_lt | apply IZR_le]; lia.
  - lia.
Qed.

(** In every built object, a band whose lower boundary bin lies below its
    centre bin, both inside the row, has the weight [1 - 1/(centre - lower)]
    at its centre bin, never 1. *)
Lemma built_centre_weight (fftSize numBanks locut hicut : Z) (fb : MelFb) (band : nat) :
  MelFb_new fftSize numBanks locut hicut = Built fb ->
  (band < Z.to_nat (numFilterBanks fb))%nat ->
  0 <= load (fLo fb) band < load (centerBins fb) band ->
  load (centerBins fb) band < IZR (fbSize fb) ->
  exists (row : list R) (zc : Z),
    nth_error (fbank fb) band = Some row /\
    load (centerBins fb) band = IZR zc /\
    nth_error row (Z.to_nat zc)
    = Some (1 - 1 / (load (centerBins fb) band - load (fLo fb) band)) /\
    nth_error row (Z.to_nat zc) <> Some 1.
Proof.
  intros Hb. apply MelFb_new_inv in Hb. destruct Hb as (_ & _ & HN & HF & ->).
  unfold centerBins. cbn [built numFilterBanks fbSize loCut hiCut fLo fHi fbank] in *.
  intros Hband [Hlo Hlt] Hc.
  set (F := fbSize_of (Z.log2_up (round24 fftSize))) in *.
  set (e := calcEdges numBanks F (IZR locut) (IZR hicut)) in *.
  assert (Hzc : exists zc, load (fCenter e) band = IZR zc).
  { unfold e. rewrite calcEdges_center by assumption. eexists. reflexivity. }
  assert (Hzl : exists zl, load (eLo e) band = IZR zl).
  { unfold e. destruct band as [|band].
    - rewrite calcEdges_lo0 by assumption. eexists. reflexivity.
    - rewrite calcEdges_lo_S by assumption. eexists. reflexivity. }
  destruct Hzc as [zc Ec]. destruct Hzl as [zl El].
  exists (row_of F e band), zc.
  split; [apply calcWeights_row; assumption|]. split; [assumption|].
  rewrite Ec, El in *. apply lt_IZR in Hlt, Hc. apply le_IZR in Hlo.
  assert (Hw : nth_error (row_of F e band) (Z.to_nat zc)
               = Some (1 - 1 / (IZR zc - IZR zl))).
  { unfold row_of. rewrite Ec, El. apply centre_weight; lia. }
  split; [exact Hw|]. rewrite Hw. intros [= H].
  assert (Hd : 0 < IZR zc - IZR zl) by (apply IZR_lt in Hlt; lra).
  pose proof (Rinv_0_lt_compat _ Hd). unfold Rdiv in H. lra.
Qed.

(** ** Where the code leaves the specification *)

(** C1: for [MelFb(64, 2, 100, 2000)] (band 0 has [fLo = 1], [fCenter = 4],
    [fHi = 9]) the weight row of band 0 holds 2/3 at the centre bin 4, its
    peak 1 at bin 5, and 1/5 at the upper boundary bin 9: each weight is
    stored before the accumulator is advanced, so the triangle sits one bin
    to the right of the one the specification describes. *)
Theorem weights_shifted_by_one_bin :
  MelFb_new 64 2 100 2000 = Built fb64 /\
  fLo fb64 = [1; 4] /\ centerBins fb64 = [4; 9] /\ fHi fb64 = [9; 63 / 4] /\
  exists row, nth_error (fbank fb64) 0 = Some row /\
    nth_error row 1 = Some 0 /\
    nth_error row 2 = Some 0 /\
    nth_error row 4 = Some (2 / 3) /\
    nth_error row 5 = Some 1 /\
    nth_error row 9 = Some (1 / 5) /\
    nth_error row 10 = Some 0.
Proof.
  split; [exact MelFb_new_64|].
  destruct fb64_edges as (Hl & Hc & Hh). repeat (split; [assumption|]).
  eexists. split; [rewrite fb64_fbank; reflexivity|].
  rewrite row0_64. cbn [nth_error]. repeat split.
Qed.

(** C4: for [MelFb(64, 2, 100, 2000)] and a frame of 32 ones, [applyMelFB]
    stores 19/5 for band 0, while the full-width product of the frame with
    the weight row of band 0 is 4: the window [floor(fLo), ceil(fHi)) stops
    before bin 9, whose weight is 1/5. *)
Theorem sparse_differs_from_dense :
  MelFb_new 64 2 100 2000 = Built fb64 /\
  applyMelFB fb64 [[0; 0]] ones32 = Some (fb64, [[19 / 5; 52 / 9]]) /\
  exists spectrum weights,
    nth_error (spectrogramm ones32) 0 = Some spectrum /\
    nth_error (fbank fb64) 0 = Some weights /\
    List.length spectrum = Z.to_nat (fbSize fb64) /\
    dense_band fb64 spectrum weights = 4 /\
    19 / 5 <> 4.
Proof.
  split; [exact MelFb_new_64|]. split; [apply applyMelFB_64|].
  exists (repeat 1 32%nat), (row_of 32 (calcEdges 2 32 100 2000) 0).
  split; [reflexivity|]. split; [rewrite fb64_fbank; reflexivity|].
  split; [reflexivity|]. split; [apply dense_64_0 | lra].
Qed.

Lemma binSize_128 : binSize 128 = 8000 / 255.
Proof. unfold binSize, SAMPLE_RATE. lra. Qed.

Lemma list1_loads (l : list R) : List.length l = 1%nat -> l = [load l 0].
Proof. destruct l as [|a [|b l]]; simpl; intros H; try discriminate. reflexivity. Qed.

Lemma MelFb_new_256 : MelFb_new 256 1 0 8000 = Built fb256.
Proof. rewrite MelFb_new_built by lia. reflexivity. Qed.

Lemma fb256_edges : fLo fb256 = [0] /\ fHi fb256 = [255].
Proof.
  pose proof (calcEdges_lengths 1 128 0 8000 ltac:(lia)) as (_ & Hl & Hh).
  pose proof (calcEdges_lo0 1 128 0 8000 ltac:(lia)) as L0.
  pose proof (calcEdges_hi_last 1 128 0 8000 ltac:(lia)) as H0.
  change (Z.to_nat 1 - 1)%nat with 0%nat in H0. change (Z.to_nat 1) with 1%nat in *.
  unfold fb256, built. cbn [fLo fHi].
  rewrite (list1_loads _ Hl), (list1_loads _ Hh), L0, H0, binSize_128.
  split; f_equal.
  - apply (roundf_eq 0). lra.
  - lra.
Qed.

(** C2: for [MelFb(256, 1, 0, 8000)] the constructor accepts the
    configuration, [fbSize] is 128 and [ceil(fHi[0])] is 255: the support
    window of the only band ends beyond the weight row, and [applyMelFB]
    reads the row outside its 128 cells, whatever frame and output matrix
    it is given. *)
Theorem window_exceeds_row :
  MelFb_new 256 1 0 8000 = Built fb256 /\
  fbSize fb256 = 128%Z /\
  (exists lo hi, fLo fb256 = [lo] /\ fHi fb256 = [hi] /\
     floor lo = 0%Z /\ ceil hi = 255%Z /\ (fbSize fb256 < ceil hi)%Z) /\
  (exists row, fbank fb256 = [row] /\ List.length row = 128%nat) /\
  applyMelFB fb256 [[0]] ones256 = None /\
  forall out spectrum, applyMelFB fb256 out (mkStft 1 [spectrum]) = None.
Proof.
  destruct fb256_edges as (Hl & Hh).
  assert (Hrow : fbank fb256 = [row_of 128 (calcEdges 1 128 0 8000) 0]).
  { unfold fb256, built. cbn [fbank]. rewrite calcWeights_map. reflexivity. }
  assert (Hall : forall out spectrum, applyMelFB fb256 out (mkStft 1 [spectrum]) = None).
  { intros out spectrum.
    rewrite (applyMelFB_out fb256 out _ 255 0)
      by (first [rewrite Hh | rewrite Hl]; reflexivity).
    rewrite (ceil_IZR 255), (floor_IZR 0). change (255 - 0)%Z with 255%Z.
    unfold apply_out. cbn [NoOfWindows].
    change (Z.to_nat 1) with 1%nat. change (Z.to_nat (numFilterBanks fb256)) with 1%nat.
    cbn [seq for_loop]. unfold band_out, band_value.
    rewrite Hl, Hh, Hrow. cbn [nth_error bind spectrogramm].
    rewrite (ceil_IZR 255), (floor_IZR 0).
    rewrite (len_nat (row_of _ _ _)), row_of_length.
    change (255 - 0 <=? 0)%Z with false.
    change (0 + (255 - 0) <=? Z.of_nat (Z.to_nat 128))%Z with false.
    rewrite andb_false_r. reflexivity. }
  split; [exact MelFb_new_256|]. split; [reflexivity|]. split; [|split; [|split]].
  - exists 0, 255. rewrite (floor_IZR 0), (ceil_IZR 255).
    repeat split; try assumption.
  - eexists. split; [exact Hrow|]. rewrite row_of_length. reflexivity.
  - apply Hall.
  - exact Hall.
Qed.

(** * Further properties of the code *)

(** ** The frequency maps are increasing *)

Lemma linToMel_lt (f g : R) : -700 < f -> f < g -> linToMel f < linToMel g.
Proof.
  intros Hf Hfg. unfold linToMel, logf. pose proof ln10_pos as H10.
  assert (H : ln (1 + f / 700) < ln (1 + g / 700)) by (apply ln_increasing; lra).
  apply Rmult_lt_compat_l; [lra|].
  unfold Rdiv. apply Rmult_lt_compat_r; [apply Rinv_0_lt_compat; lra | exact H].
Qed.

Lemma melToLin_lt (m p : R) : m < p -> melToLin m < melToLin p.
Proof.
  intros Hmp. rewrite !melToLin_exp. pose proof ln10_pos as H10.
  assert (H : m / 2595 * ln 10 < p / 2595 * ln 10) by nra.
  apply exp_increasing in H. lra.
Qed.

(** X1: [linToMel] is strictly increasing on frequencies above -700 Hz and
    [melToLin] is strictly increasing everywhere; both map 0 to 0, and a
    frequency above 0 has a mel value above 0. *)
Theorem mel_maps_increasing (f g m p : R) :
  -700 < f -> f < g -> m < p ->
  linToMel f < linToMel g /\ melToLin m < melToLin p /\
  linToMel 0 = 0 /\ melToLin 0 = 0 /\ (0 < g -> 0 < linToMel g).
Proof.
  intros Hf Hfg Hmp.
  assert (L0 : linToMel 0 = 0).
  { unfold linToMel, logf. replace (1 + 0 / 700) with 1 by lra. rewrite ln_1. lra. }
  assert (M0 : melToLin 0 = 0).
  { rewrite melToLin_exp. replace (0 / 2595 * ln 10) with 0 by lra. rewrite exp_0. lra. }
  split; [apply linToMel_lt; assumption|].
  split; [apply melToLin_lt; assumption|].
  split; [exact L0|]. split; [exact M0|].
  intros Hg. rewrite <- L0. apply linToMel_lt; lra.
Qed.

Lemma mel_maps_increasing_witness :
  linToMel 300 < linToMel 3400 /\ melToLin 100 < melToLin 200.
Proof.
  destruct (mel_maps_increasing 300 3400 100 200) as (H1 & H2 & _);
    [lra | lra | lra |].
  split; assumption.
Defined.

(** ** The checks of the constructor *)

(** X2: on a positive [fftSize] the constructor throws "HiCut Parameter too
    high" exactly when [hicut > SAMPLE_RATE], also when the number of banks
    is zero, and it throws "Number of Filterbanks is zero" exactly when
    [hicut <= SAMPLE_RATE] and [numBanks = 0]: the cut is checked first. *)
Theorem constructor_messages (fftSize numBanks locut hicut : Z) :
  (0 < fftSize)%Z ->
  (MelFb_new fftSize numBanks locut hicut = InvalidConfig "HiCut Parameter too high"
   <-> (8000 < hicut)%Z) /\
  (MelFb_new fftSize numBanks locut hicut = InvalidConfig "Number of Filterbanks is zero"
   <-> (hicut <= 8000)%Z /\ numBanks = 0%Z).
Proof.
  intros Hf. unfold MelFb_new. rewrite fftOrder_eq by assumption.
  destruct (Z_lt_le_dec 8000 hicut) as [Hh | Hh].
  - rewrite flt_true by (unfold SAMPLE_RATE; apply IZR_lt; assumption).
    split; split; try tauto; try discriminate. intros [H _]. lia.
  - rewrite flt_false by (unfold SAMPLE_RATE; apply IZR_le; assumption).
    destruct (Z.eqb_spec numBanks 0) as [Hn | Hn].
    + split; split; try tauto; try discriminate. intros H. lia.
    + assert (Hc : forall what, calcMelFB numBanks (fbSize_of (Z.log2_up (round24 fftSize)))
                                  (IZR locut) (IZR hicut) <> InvalidConfig what).
      { intros what. unfold calcMelFB.
        destruct (numBanks <? 0)%Z; [discriminate|].
        destruct (numBanks =? 0)%Z; [discriminate|].
        destruct (fbSize_of (Z.log2_up (round24 fftSize)) <? 0)%Z; discriminate. }
      split; split; intros H; try lia; exfalso; apply (Hc _ H).
Qed.

Lemma constructor_messages_witness :
  MelFb_new 256 0 300 9000 = InvalidConfig "HiCut Parameter too high" /\
  MelFb_new 256 0 300 3400 = InvalidConfig "Number of Filterbanks is zero".
Proof.
  split.
  - apply (proj1 (constructor_messages 256 0 300 9000 ltac:(lia))). lia.
  - apply (proj2 (constructor_messages 256 0 300 3400 ltac:(lia))). lia.
Defined.

(** ** The number of bins *)

(** X3: for [2 <= fftSize <= 2^30] the number of bins of a built object is
    a power of two and the bin width is positive; for a transform size up
    to [2^16] the number of bins satisfies
    [fbSize <= fftSize <= 2*fbSize]. *)
Theorem fbSize_bounds (fftSize numBanks locut hicut : Z) (fb : MelFb) :
  (2 <= fftSize <= 2 ^ 30)%Z ->
  MelFb_new fftSize numBanks locut hicut = Built fb ->
  (exists k, (0 <= k)%Z /\ fbSize fb = (2 ^ k)%Z) /\
  0 < binSize (fbSize fb) /\
  ((fftSize <= 2 ^ 16)%Z -> (fbSize fb <= fftSize <= 2 * fbSize fb)%Z).
Proof.
  intros Hf Hb. apply MelFb_new_inv in Hb. destruct Hb as (_ & _ & _ & _ & ->).
  cbn [built fbSize].
  pose proof (round24_le30 fftSize ltac:(lia)) as Hr.
  assert (Hr2 : (2 <= round24 fftSize)%Z).
  { destruct (Z_lt_le_dec fftSize (2 ^ 24)); [rewrite round24_small by lia; lia|].
    pose proof (round24_large fftSize ltac:(assumption)) as [Hp _].
    assert (2 ^ 1 <= 2 ^ Z.log2 fftSize)%Z.
    { apply Z.pow_le_mono_r; [lia|]. pose proof (Z.log2_pos fftSize ltac:(lia)). lia. }
    lia. }
  pose proof (log2_up_le30 (round24 fftSize) Hr) as Ho.
  pose proof (Z.log2_up_spec (round24 fftSize) ltac:(lia)) as [Hlo Hhi].
  pose proof (Z.log2_up_pos (round24 fftSize) ltac:(lia)) as Hpos.
  rewrite fbSize_of_small by assumption.
  set (e := Z.log2_up (round24 fftSize)) in *.
  assert (He : (2 ^ e = 2 * 2 ^ (e - 1))%Z).
  { rewrite <- Z.pow_succ_r by lia. f_equal. lia. }
  assert (Hhalf : (2 ^ e / 2 = 2 ^ (e - 1))%Z).
  { rewrite He. rewrite Z.mul_comm, Z.div_mul by lia. reflexivity. }
  rewrite Hhalf. replace (Z.pred e) with (e - 1)%Z in Hlo by lia.
  assert (H1 : (1 <= 2 ^ (e - 1))%Z).
  { assert (0 < 2 ^ (e - 1))%Z by (apply Z.pow_pos_nonneg; lia). lia. }
  split; [exists (e - 1)%Z; split; [lia | reflexivity]|].
  split; [apply binSize_pos; assumption|].
  intros Hs. rewrite round24_small in Hlo, Hhi by lia. lia.
Qed.

Lemma fbSize_bounds_witness :
  exists fb, MelFb_new 200 4 300 3400 = Built fb /\
    fbSize fb = 128%Z /\ (fbSize fb <= 200 <= 2 * fbSize fb)%Z.
Proof.
  eexists. split; [apply MelFb_new_built; lia|].
  split; [reflexivity|].
  apply (fbSize_bounds 200 4 300 3400 _ ltac:(lia)
           (MelFb_new_built 200 4 300 3400 ltac:(lia) ltac:(lia) ltac:(lia))).
  lia.
Defined.

(** ** The weight row, bin by bin *)

Lemma calcRow_snd_S (lo c hi : R) (a : nat) :
  forall k x,
    snd (calcRow lo c hi k (S a) x)
    = snd (bin_step lo c hi (k + Z.of_nat a) (snd (calcRow lo c hi k a x))).
Proof.
  intros k x. replace (S a) with (a + 1)%nat by lia. rewrite calcRow_app.
  cbn [snd calcRow].
  destruct (bin_step lo c hi (k + Z.of_nat a) (snd (calcRow lo c hi k a x))). reflexivity.
Qed.

Lemma calcRow_fst_snoc (lo c hi : R) (a : nat) :
  forall k x,
    fst (calcRow lo c hi k (S a) x)
    = fst (calcRow lo c hi k a x)
      ++ [fst (bin_step lo c hi (k + Z.of_nat a) (snd (calcRow lo c hi k a x)))].
Proof.
  intros k x. replace (S a) with (a + 1)%nat by lia. rewrite calcRow_app.
  cbn [fst calcRow].
  destruct (bin_step lo c hi (k + Z.of_nat a) (snd (calcRow lo c hi k a x))). reflexivity.
Qed.

(** The first [a] bins of a longer row are the row of [a] bins. *)
Lemma calcRow_firstn (lo c hi : R) (a todo : nat) (k : Z) (x : R) :
  (a <= todo)%nat ->
  firstn a (fst (calcRow lo c hi k todo x)) = fst (calcRow lo c hi k a x).
Proof.
  intros H. replace todo with (a + (todo - a))%nat by lia.
  rewrite calcRow_app. cbn [fst].
  rewrite firstn_app, calcRow_length, Nat.sub_diag. cbn [firstn].
  rewrite app_nil_r. apply firstn_all2. rewrite calcRow_length. lia.
Qed.

(** Bin [j] of a row holds what [bin_step] stores from the accumulator left
    by the bins before it. *)
Lemma calcRow_nth (lo c hi : R) (todo j : nat) (k : Z) (x : R) :
  (j < todo)%nat ->
  nth_error (fst (calcRow lo c hi k todo x)) j
  = Some (fst (bin_step lo c hi (k + Z.of_nat j) (snd (calcRow lo c hi k j x)))).
Proof.
  intros H.
  assert (E : nth_error (fst (calcRow lo c hi k todo x)) j
              = nth_error (firstn (S j) (fst (calcRow lo c hi k todo x))) j).
  { rewrite nth_error_firstn. destruct (Nat.ltb_spec j (S j)); [reflexivity | lia]. }
  rewrite E, calcRow_firstn by lia.
  rewrite calcRow_fst_snoc.
  rewrite nth_error_app2 by (rewrite calcRow_length; lia).
  rewrite calcRow_length, Nat.sub_diag. reflexivity.
Qed.

(** The accumulator before bin [j], for whole bins [zl < zc]: 0 up to the
    lower boundary, a ramp up to 1 over the bins [zl+1 .. zc], then a ramp
    down while the bins stay at or below [hi]. *)
Lemma accumulator_phases (zl zc : Z) (hi : R) :
  (0 <= zl < zc)%Z ->
  forall j : nat,
    let x := snd (calcRow (IZR zl) (IZR zc) hi 0 j 0) in
    ((Z.of_nat j <= zl + 1)%Z -> x = 0) /\
    ((zl + 1 <= Z.of_nat j <= zc + 1)%Z ->
       x = (IZR (Z.of_nat j) - IZR zl - 1) / (IZR zc - IZR zl)) /\
    ((zc + 1 <= Z.of_nat j)%Z -> IZR (Z.of_nat j) - 1 <= hi ->
       x = 1 - (IZR (Z.of_nat j) - IZR zc - 1) / (hi - IZR zc)).
Proof.
  intros Hz. assert (Hzr : IZR zl < IZR zc) by (apply IZR_lt; lia).
  induction j as [|j IH]; cbv zeta in *.
  - cbn [calcRow snd]. split; [reflexivity|]. split; intros H; exfalso; lia.
  - destruct IH as (I1 & I2 & I3).
    rewrite calcRow_snd_S, Z.add_0_l. rewrite Nat2Z.inj_succ, succ_IZR.
    set (xj := snd (calcRow (IZR zl) (IZR zc) hi 0 j 0)) in *.
    set (zj := Z.of_nat j) in *.
    split; [|split].
    + intros H. rewrite bin_step_zero; [apply I1; lia | |];
        left; apply IZR_le; lia.
    + intros H. destruct (Z.eq_dec zj zl) as [E | E].
      * rewrite bin_step_zero by (left; apply IZR_le; lia).
        cbn [snd]. rewrite I1 by lia. rewrite E. field. lra.
      * rewrite bin_step_rise by (split; [apply IZR_lt | apply IZR_le]; lia).
        cbn [snd]. rewrite I2 by lia. field. lra.
    + intros H Hhi. destruct (Z.eq_dec zj zc) as [E | E].
      * rewrite bin_step_rise by (split; [apply IZR_lt | apply IZR_le]; lia).
        cbn [snd]. rewrite I2 by lia. rewrite E.
        replace (IZR zc + 1 - IZR zc - 1) with 0 by lra.
        replace (0 / (hi - IZR zc)) with 0 by (unfold Rdiv; rewrite Rmult_0_l; reflexivity).
        field. lra.
      * assert (Hc : IZR zc < IZR zj) by (apply IZR_lt; lia).
        rewrite bin_step_fall by (try right; lra).
        cbn [snd]. rewrite I3 by (try lia; lra). field. lra.
Qed.

(** The weights of a row with whole-bin boundaries [zl < zc], in closed
    form. *)
Lemma row_weights (zl zc : Z) (hi : R) (todo : nat) (k : Z) :
  (0 <= zl < zc)%Z -> (0 <= k < Z.of_nat todo)%Z ->
  let w := nth_error (fst (calcRow (IZR zl) (IZR zc) hi 0 todo 0)) (Z.to_nat k) in
  ((zl < k <= zc)%Z -> w = Some ((IZR k - 1 - IZR zl) / (IZR zc - IZR zl))) /\
  ((zc < k)%Z -> IZR k <= hi ->
     w = Some (1 - (IZR k - 1 - IZR zc) / (hi - IZR zc))) /\
  ((k <= zl)%Z \/ hi < IZR k /\ (zc < k)%Z -> w = Some 0).
Proof.
  intros Hz Hk. cbv zeta.
  rewrite calcRow_nth by lia. rewrite Z.add_0_l, Z2Nat.id by lia.
  destruct (accumulator_phases zl zc hi ltac:(lia) (Z.to_nat k)) as (A1 & A2 & A3).
  cbv zeta in *. rewrite Z2Nat.id in * by lia.
  assert (Hzr : IZR zl < IZR zc) by (apply IZR_lt; lia).
  split; [|split].
  - intros H. rewrite bin_step_rise by (split; [apply IZR_lt | apply IZR_le]; lia).
    cbn [fst]. rewrite A2 by lia. f_equal. field. lra.
  - intros H Hhi. assert (IZR zc < IZR k) by (apply IZR_lt; lia).
    rewrite bin_step_fall by (try right; lra).
    cbn [fst]. rewrite A3 by (try lia; lra). f_equal. field. lra.
  - intros [H | [H H']].
    + rewrite bin_step_zero; [reflexivity | |]; left; apply IZR_le; lia.
    + assert (IZR zc < IZR k) by (apply IZR_lt; lia).
      rewrite bin_step_zero; [reflexivity | |]; right; lra.
Qed.

(** The row of a band of a built object: its lower boundary and its centre
    are whole bins. *)
Lemma built_band (fftSize numBanks locut hicut : Z) (fb : MelFb) (band : nat) :
  MelFb_new fftSize numBanks locut hicut = Built fb ->
  (band < Z.to_nat (numFilterBanks fb))%nat ->
  exists zl zc : Z,
    load (fLo fb) band = IZR zl /\ load (centerBins fb) band = IZR zc /\
    (0 <= fbSize fb)%Z /\
    nth_error (fbank fb) band
    = Some (fst (calcRow (IZR zl) (IZR zc) (load (fHi fb) band) 0
                         (Z.to_nat (fbSize fb)) 0)).
Proof.
  intros Hb. apply MelFb_new_inv in Hb. destruct Hb as (_ & _ & HN & HF & ->).
  unfold centerBins. cbn [built numFilterBanks fbSize loCut hiCut fLo fHi fbank] in *.
  intros Hband.
  set (F := fbSize_of (Z.log2_up (round24 fftSize))) in *.
  set (e := calcEdges numBanks F (IZR locut) (IZR hicut)) in *.
  assert (Hzc : exists zc, load (fCenter e) band = IZR zc).
  { unfold e. rewrite calcEdges_center by assumption. eexists. reflexivity. }
  assert (Hzl : exists zl, load (eLo e) band = IZR zl).
  { unfold e. destruct band as [|band].
    - rewrite calcEdges_lo0 by assumption. eexists. reflexivity.
    - rewrite calcEdges_lo_S by assumption. eexists. reflexivity. }
  destruct Hzc as [zc Ec]. destruct Hzl as [zl El].
  exists zl, zc. repeat split; try assumption.
  rewrite calcWeights_row by assumption. unfold row_of. rewrite Ec, El. reflexivity.
Qed.

(** X4: in every built object each weight row has [fbSize] bins, and a bin
    [k] that lies neither in [(fLo, fCenter]] nor in [(fCenter, fHi]] holds
    the weight 0. *)
Theorem weights_vanish_outside_band
  (fftSize numBanks locut hicut : Z) (fb : MelFb) (band : nat) (k : Z) :
  MelFb_new fftSize numBanks locut hicut = Built fb ->
  (band < Z.to_nat (numFilterBanks fb))%nat ->
  (0 <= k < fbSize fb)%Z ->
  (IZR k <= load (fLo fb) band \/ load (centerBins fb) band < IZR k) ->
  (IZR k <= load (centerBins fb) band \/ load (fHi fb) band < IZR k) ->
  exists row, nth_error (fbank fb) band = Some row /\
    List.length row = Z.to_nat (fbSize fb) /\
    nth_error row (Z.to_nat k) = Some 0.
Proof.
  intros Hb Hband Hk H1 H2.
  destruct (built_band _ _ _ _ _ band Hb Hband) as (zl & zc & El & Ec & HF & Hrow).
  eexists. split; [exact Hrow|]. split; [apply calcRow_length|].
  rewrite calcRow_nth by lia. rewrite Z.add_0_l, Z2Nat.id by lia.
  rewrite <- El, <- Ec. rewrite bin_step_zero by assumption. reflexivity.
Qed.

Lemma weights_vanish_outside_band_witness :
  exists row, nth_error (fbank fb64) 0 = Some row /\
    List.length row = Z.to_nat (fbSize fb64) /\
    nth_error row (Z.to_nat 20) = Some 0.
Proof.
  destruct fb64_edges as (Hl & Hc & Hh).
  apply (weights_vanish_outside_band 64 2 100 2000 fb64 0 20 MelFb_new_64).
  - simpl. lia.
  - simpl. lia.
  - right. rewrite Hc. unfold load. cbn [nth]. lra.
  - right. rewrite Hh. unfold load. cbn [nth]. lra.
Defined.

(** X5: in a built object, a band whose lower boundary bin lies below its
    centre bin ([0 <= fLo < fCenter]) carries the triangle moved one bin to
    the right: on [fLo < k <= fCenter] the weight is
    [(k - 1 - fLo) / (fCenter - fLo)], on [fCenter < k <= fHi] it is
    [1 - (k - 1 - fCenter) / (fHi - fCenter)]; it is 0 at bin [fLo + 1] and
    reaches 1 at bin [fCenter + 1] when that bin is not beyond [fHi]. *)
Theorem weights_closed_form
  (fftSize numBanks locut hicut : Z) (fb : MelFb) (band : nat) :
  MelFb_new fftSize numBanks locut hicut = Built fb ->
  (band < Z.to_nat (numFilterBanks fb))%nat ->
  0 <= load (fLo fb) band < load (centerBins fb) band ->
  let lo := load (fLo fb) band in
  let c := load (centerBins fb) band in
  let hi := load (fHi fb) band in
  exists row, nth_error (fbank fb) band = Some row /\
    forall k, (0 <= k < fbSize fb)%Z ->
      (lo < IZR k <= c -> nth_error row (Z.to_nat k) = Some ((IZR k - 1 - lo) / (c - lo))) /\
      (c < IZR k <= hi ->
         nth_error row (Z.to_nat k) = Some (1 - (IZR k - 1 - c) / (hi - c))) /\
      (IZR k = lo + 1 -> nth_error row (Z.to_nat k) = Some 0) /\
      (IZR k = c + 1 -> IZR k <= hi -> nth_error row (Z.to_nat k) = Some 1).
Proof.
  intros Hb Hband Hlo. cbv zeta.
  destruct (built_band _ _ _ _ _ band Hb Hband) as (zl & zc & El & Ec & HF & Hrow).
  rewrite El, Ec in *. destruct Hlo as [Hl0 Hlc].
  apply le_IZR in Hl0. apply lt_IZR in Hlc.
  eexists. split; [exact Hrow|]. intros k Hk.
  destruct (row_weights zl zc (load (fHi fb) band) (Z.to_nat (fbSize fb)) k
              ltac:(lia) ltac:(lia)) as (R1 & R2 & R3).
  cbv zeta in *.
  assert (Hzr : IZR zl < IZR zc) by (apply IZR_lt; lia).
  split; [|split; [|split]].
  - intros [H1 H2]. apply lt_IZR in H1. apply le_IZR in H2. apply R1. lia.
  - intros [H1 H2]. apply lt_IZR in H1. apply R2; [lia | assumption].
  - intros H. rewrite <- plus_IZR in H. apply eq_IZR in H.
    rewrite R1 by lia. f_equal. subst k. rewrite plus_IZR. field. lra.
  - intros H Hhi. rewrite <- plus_IZR in H. apply eq_IZR in H.
    rewrite R2 by (try lia; assumption). f_equal. subst k.
    rewrite plus_IZR in *.
    replace (IZR zc + 1 - 1 - IZR zc) with 0 by lra.
    unfold Rdiv. rewrite Rmult_0_l. lra.
Qed.

Lemma weights_closed_form_witness :
  exists row, nth_error (fbank fb64) 0 = Some row /\
    nth_error row (Z.to_nat 3) = Some ((3 - 1 - 1) / (4 - 1)) /\
    nth_error row (Z.to_nat 5) = Some 1.
Proof.
  destruct fb64_edges as (Hl & Hc & Hh).
  destruct (weights_closed_form 64 2 100 2000 fb64 0 MelFb_new_64) as (row & Hrow & Hw).
  - simpl. lia.
  - rewrite Hl, Hc. unfold load. cbn [nth]. lra.
  - rewrite Hl, Hc, Hh in Hw. unfold load in Hw. cbn [nth] in Hw.
    exists row. split; [exact Hrow|]. split.
    + apply (Hw 3%Z); [simpl; lia | lra].
    + apply (Hw 5%Z); [simpl; lia | lra | lra].
Defined.

(** ** The sum of a weight row *)

Lemma sum_list_app (a b : list R) : sum_list (a ++ b) = sum_list a + sum_list b.
Proof.
  unfold sum_list. induction a as [|x a IH]; simpl; [lra|]. rewrite IH. lra.
Qed.

(** The sum of the first [j] bins of a row with whole-bin boundaries
    [zl < zc < zh]. *)
Lemma row_prefix_sum (zl zc zh : Z) :
  (0 <= zl < zc)%Z -> (zc < zh)%Z ->
  forall j : nat,
    let s := sum_list (fst (calcRow (IZR zl) (IZR zc) (IZR zh) 0 j 0)) in
    let d := IZR zc - IZR zl in
    let e := IZR zh - IZR zc in
    let t := IZR (Z.of_nat j) in
    ((Z.of_nat j <= zl + 1)%Z -> s = 0) /\
    ((zl + 1 <= Z.of_nat j <= zc + 1)%Z ->
       s = (t - IZR zl - 1) * (t - IZR zl - 2) / (2 * d)) /\
    ((zc + 1 <= Z.of_nat j <= zh + 1)%Z ->
       s = (d - 1) / 2 + (t - IZR zc - 1) - (t - IZR zc - 1) * (t - IZR zc - 2) / (2 * e)) /\
    ((zh + 1 <= Z.of_nat j)%Z -> s = (IZR zh - IZR zl) / 2).
Proof.
  intros Hz Hh.
  assert (Hd : 0 < IZR zc - IZR zl) by (assert (IZR zl < IZR zc) by (apply IZR_lt; lia); lra).
  assert (He : 0 < IZR zh - IZR zc) by (assert (IZR zc < IZR zh) by (apply IZR_lt; lia); lra).
  induction j as [|j IH]; cbv zeta in *.
  - cbn [calcRow fst sum_list fold_right].
    split; [reflexivity|]. repeat split; intros H; exfalso; lia.
  - destruct IH as (I1 & I2 & I3 & I4).
    destruct (accumulator_phases zl zc (IZR zh) Hz j) as (A1 & A2 & A3). cbv zeta in *.
    rewrite calcRow_fst_snoc, sum_list_app, Z.add_0_l.
    rewrite Nat2Z.inj_succ, succ_IZR.
    set (sj := sum_list (fst (calcRow (IZR zl) (IZR zc) (IZR zh) 0 j 0))) in *.
    set (xj := snd (calcRow (IZR zl) (IZR zc) (IZR zh) 0 j 0)) in *.
    set (zj := Z.of_nat j) in *.
    assert (Hone : forall v, sum_list [v] = v) by (intros v; unfold sum_list; simpl; lra).
    rewrite Hone.
    assert (Hidle : (zj <= zl)%Z -> fst (bin_step (IZR zl) (IZR zc) (IZR zh) zj xj) = 0).
    { intros H. rewrite bin_step_zero; [reflexivity | |]; left; apply IZR_le; lia. }
    assert (Hrise : (zl < zj <= zc)%Z -> fst (bin_step (IZR zl) (IZR zc) (IZR zh) zj xj) = xj).
    { intros H. rewrite bin_step_rise; [reflexivity|].
      split; [apply IZR_lt | apply IZR_le]; lia. }
    assert (Hfall : (zc < zj <= zh)%Z -> fst (bin_step (IZR zl) (IZR zc) (IZR zh) zj xj) = xj).
    { intros H. rewrite bin_step_fall; [reflexivity | |].
      - right. apply IZR_lt. lia.
      - split; [apply IZR_lt | apply IZR_le]; lia. }
    assert (Hpast : (zh < zj)%Z -> fst (bin_step (IZR zl) (IZR zc) (IZR zh) zj xj) = 0).
    { intros H. rewrite bin_step_zero; [reflexivity | |]; right; apply IZR_lt; lia. }
    split; [|split; [|split]]; intros H.
    + rewrite Hidle, I1 by lia. lra.
    + destruct (Z.eq_dec zj zl) as [E | E].
      * rewrite Hidle, I1 by lia. rewrite E. field. lra.
      * rewrite Hrise, I2, A2 by lia. field. lra.
    + destruct (Z.eq_dec zj zc) as [E | E].
      * rewrite Hrise, I2, A2 by lia. rewrite E. field. split; lra.
      * assert (IZR zj <= IZR zh) by (apply IZR_le; lia).
        rewrite Hfall, I3, A3 by (try lia; lra). field. lra.
    + destruct (Z.eq_dec zj zh) as [E | E].
      * assert (IZR zj <= IZR zh) by (apply IZR_le; lia).
        rewrite Hfall, I3, A3 by (try lia; lra). rewrite E. field. lra.
      * rewrite Hpast, I4 by lia. lra.
Qed.

(** X7: in a built object, a band whose three boundaries are whole bins
    with [0 <= fLo < fCenter < fHi < fbSize] has weights that sum to half
    its width, [(fHi - fLo) / 2]; this is what the full-width product with
    a frame of ones gives. *)
Theorem weights_sum_half_width
  (fftSize numBanks locut hicut : Z) (fb : MelFb) (band : nat) (zh : Z) :
  MelFb_new fftSize numBanks locut hicut = Built fb ->
  (band < Z.to_nat (numFilterBanks fb))%nat ->
  load (fHi fb) band = IZR zh ->
  0 <= load (fLo fb) band < load (centerBins fb) band ->
  load (centerBins fb) band < load (fHi fb) band < IZR (fbSize fb) ->
  exists row, nth_error (fbank fb) band = Some row /\
    sum_list row = (load (fHi fb) band - load (fLo fb) band) / 2 /\
    dense_band fb (repeat 1 (Z.to_nat (fbSize fb))) row
    = (load (fHi fb) band - load (fLo fb) band) / 2.
Proof.
  intros Hb Hband Eh [Hl0 Hlc] [Hch HhF].
  destruct (built_band _ _ _ _ _ band Hb Hband) as (zl & zc & El & Ec & HF & Hrow).
  rewrite El, Ec, Eh in *.
  apply le_IZR in Hl0. apply lt_IZR in Hlc, Hch, HhF.
  eexists. split; [exact Hrow|].
  destruct (row_prefix_sum zl zc zh ltac:(lia) ltac:(lia) (Z.to_nat (fbSize fb)))
    as (_ & _ & _ & S4).
  cbv zeta in S4. rewrite Z2Nat.id in S4 by lia.
  split; [apply S4; lia|].
  unfold dense_band.
  set (row := fst (calcRow (IZR zl) (IZR zc) (IZR zh) 0 (Z.to_nat (fbSize fb)) 0)) in *.
  assert (Hlen : List.length row = Z.to_nat (fbSize fb)) by apply calcRow_length.
  rewrite firstn_all2 by (rewrite repeat_length; lia).
  rewrite firstn_all2 by lia.
  rewrite <- Hlen. rewrite <- (S4 ltac:(lia)). fold row.
  clear. induction row as [|w row IH]; [reflexivity|].
  cbn [List.length repeat mul_pointwise]. unfold sum_list in *. cbn [fold_right].
  rewrite IH. lra.
Qed.

Lemma weights_sum_half_width_witness :
  exists row, nth_error (fbank fb64) 0 = Some row /\ sum_list row = (9 - 1) / 2.
Proof.
  destruct fb64_edges as (Hl & Hc & Hh).
  destruct (weights_sum_half_width 64 2 100 2000 fb64 0 9 MelFb_new_64)
    as (row & Hrow & Hs & _).
  - simpl. lia.
  - rewrite Hh. reflexivity.
  - rewrite Hl, Hc. unfold load. cbn [nth]. lra.
  - rewrite Hc, Hh. unfold load. cbn [nth]. simpl (fbSize fb64). lra.
  - exists row. split; [exact Hrow|]. rewrite Hs, Hl, Hh. unfold load. cbn [nth].
    reflexivity.
Defined.

(** ** The cells of the output matrix after [applyMelFB] *)

(** Every round of a loop that succeeds has succeeded. *)
Lemma for_loop_each {S : Type} (body : nat -> S -> option S) (idx : list nat) :
  forall s s', for_loop body idx s = Some s' ->
    forall i, In i idx -> exists s1 s2, body i s1 = Some s2.
Proof.
  induction idx as [|a idx IH]; intros s s' H i Hi; [contradiction|].
  cbn [for_loop] in H. destruct (body a s) as [s1|] eqn:E; [|discriminate].
  cbn [bind] in H. destruct Hi as [<- | Hi].
  - exists s, s1. exact E.
  - apply (IH s1 s' H i Hi).
Qed.

Lemma band_out_cells (fb : MelFb) (stft : Stft) (M : Z) (w b : nat) (o o' : list (list R)) :
  band_out fb stft M w b o = Some o' ->
  band_value fb stft M w b <> None /\
  same_shape o o' /\
  forall i j, cell o' i j
              = if ((i =? w) && (j =? b))%nat
                then match written fb stft M w b with
                     | Some v => Some v
                     | None => cell o i j
                     end
                else cell o i j.
Proof.
  unfold band_out, written.
  destruct (band_value fb stft M w b) as [[v|]|]; cbn [bind]; [| |discriminate].
  - intros H. apply put_cell_some in H. destruct H as [Hs Hc].
    split; [discriminate|]. split; [exact Hs|]. exact Hc.
  - rewrite put_cell_none. destruct (nth_error o w); [|discriminate].
    intros [= <-]. split; [discriminate|]. split; [reflexivity|].
    intros i j. destruct ((i =? w) && (j =? b))%nat; reflexivity.
Qed.

Lemma band_loop_cells (fb : MelFb) (stft : Stft) (M : Z) (w : nat) (bands : list nat) :
  NoDup bands ->
  forall o o', for_loop (band_out fb stft M w) bands o = Some o' ->
    same_shape o o' /\
    forall i j, cell o' i j
                = match written fb stft M i j with
                  | Some v => if Nat.eq_dec i w
                              then if in_dec Nat.eq_dec j bands then Some v else cell o i j
                              else cell o i j
                  | None => cell o i j
                  end.
Proof.
  induction 1 as [|b bands Hnot Hnd IH]; intros o o' H.
  - injection H as <-. split; [reflexivity|].
    intros i j. destruct (written fb stft M i j); [|reflexivity].
    destruct (Nat.eq_dec i w); reflexivity.
  - cbn [for_loop] in H.
    destruct (band_out fb stft M w b o) as [o1|] eqn:E; [|discriminate].
    cbn [bind] in H. apply band_out_cells in E. destruct E as (_ & Hs1 & Hc1).
    destruct (IH o1 o' H) as (Hs2 & Hc2).
    split; [unfold same_shape in *; congruence|].
    intros i j. rewrite Hc2, Hc1.
    destruct (Nat.eqb_spec i w) as [-> | Hi]; cbn [andb].
    + destruct (Nat.eqb_spec j b) as [-> | Hj].
      * destruct (written fb stft M w b) as [v|]; [|reflexivity].
        destruct (Nat.eq_dec w w); [|contradiction].
        destruct (in_dec Nat.eq_dec b bands); [contradiction|].
        destruct (in_dec Nat.eq_dec b (b :: bands)) as [_ | n0];
          [reflexivity | exfalso; apply n0; left; reflexivity].
      * destruct (written fb stft M w j) as [v|]; [|reflexivity].
        destruct (Nat.eq_dec w w); [|contradiction].
        destruct (in_dec Nat.eq_dec j bands) as [Hin | Hin];
          destruct (in_dec Nat.eq_dec j (b :: bands)) as [Hin' | Hin']; try reflexivity.
        -- exfalso. apply Hin'. right. assumption.
        -- exfalso. destruct Hin' as [-> | Hin']; contradiction.
    + destruct (written fb stft M i j) as [v|]; [|reflexivity].
      destruct (Nat.eq_dec i w); [contradiction | reflexivity].
Qed.

Lemma window_loop_cells (fb : MelFb) (stft : Stft) (M : Z) (bands windows : list nat) :
  NoDup bands -> NoDup windows ->
  forall o o',
    for_loop (fun w => for_loop (band_out fb stft M w) bands) windows o = Some o' ->
    same_shape o o' /\
    forall i j, cell o' i j
                = match written fb stft M i j with
                  | Some v => if in_dec Nat.eq_dec i windows
                              then if in_dec Nat.eq_dec j bands then Some v else cell o i j
                              else cell o i j
                  | None => cell o i j
                  end.
Proof.
  intros Hb. induction 1 as [|w windows Hnot Hnd IH]; intros o o' H.
  - injection H as <-. split; [reflexivity|].
    intros i j. destruct (written fb stft M i j); reflexivity.
  - cbn [for_loop] in H.
    destruct (for_loop (band_out fb stft M w) bands o) as [o1|] eqn:E; [|discriminate].
    cbn [bind] in H. apply (band_loop_cells fb stft M w bands Hb) in E.
    destruct E as (Hs1 & Hc1). destruct (IH o1 o' H) as (Hs2 & Hc2).
    split; [unfold same_shape in *; congruence|].
    intros i j. rewrite Hc2, Hc1.
    destruct (written fb stft M i j) as [v|]; [|reflexivity].
    destruct (in_dec Nat.eq_dec i windows) as [Hin | Hin];
      destruct (in_dec Nat.eq_dec i (w :: windows)) as [Hin' | Hin'];
      destruct (Nat.eq_dec i w) as [-> | Hne];
      destruct (in_dec Nat.eq_dec j bands); try reflexivity; try contradiction;
      exfalso; try (apply Hin'; simpl; auto; fail);
      destruct Hin' as [E | E]; [congruence | contradiction].
Qed.

(** What a successful call leaves in the output matrix, cell by cell. *)
Lemma apply_out_cells (fb : MelFb) (stft : Stft) (M : Z) (o o' : list (list R)) :
  apply_out fb stft M o = Some o' ->
  same_shape o o' /\
  (forall i j, (i < Z.to_nat (NoOfWindows stft))%nat ->
               (j < Z.to_nat (numFilterBanks fb))%nat ->
               band_value fb stft M i j <> None /\
               cell o' i j = match written fb stft M i j with
                             | Some v => Some v
                             | None => cell o i j
                             end) /\
  (forall i j, ~ ((i < Z.to_nat (NoOfWindows stft))%nat /\
                  (j < Z.to_nat (numFilterBanks fb))%nat) ->
               cell o' i j = cell o i j).
Proof.
  unfold apply_out. intros H.
  destruct (window_loop_cells fb stft M _ _ (seq_NoDup _ 0) (seq_NoDup _ 0) o o' H)
    as (Hs & Hc).
  split; [exact Hs|]. split.
  - intros i j Hi Hj. split.
    + destruct (for_loop_each _ _ _ _ H i ltac:(apply in_seq; lia)) as (o1 & o2 & E1).
      destruct (for_loop_each _ _ _ _ E1 j ltac:(apply in_seq; lia)) as (o3 & o4 & E2).
      apply band_out_cells in E2. apply E2.
    + rewrite Hc. destruct (written fb stft M i j); [|reflexivity].
      destruct (in_dec Nat.eq_dec i (seq 0 (Z.to_nat (NoOfWindows stft)))) as [_ | n0];
        [|exfalso; apply n0, in_seq; lia].
      destruct (in_dec Nat.eq_dec j (seq 0 (Z.to_nat (numFilterBanks fb)))) as [_ | n0];
        [reflexivity | exfalso; apply n0, in_seq; lia].
  - intros i j Hn. rewrite Hc. destruct (written fb stft M i j); [|reflexivity].
    destruct (in_dec Nat.eq_dec i (seq 0 (Z.to_nat (NoOfWindows stft)))) as [Hi | _];
      [|reflexivity].
    destruct (in_dec Nat.eq_dec j (seq 0 (Z.to_nat (numFilterBanks fb)))) as [Hj | _];
      [|reflexivity].
    exfalso. apply Hn. apply in_seq in Hi, Hj. lia.
Qed.

(** A successful call: the last-band sizes and the run on the matrix. *)
Lemma applyMelFB_inv (fb fb' : MelFb) (out out' : list (list R)) (stft : Stft) :
  applyMelFB fb out stft = Some (fb', out') ->
  exists hiLast loLast,
    rd (fHi fb) (numFilterBanks fb - 1) = Some hiLast /\
    rd (fLo fb) (numFilterBanks fb - 1) = Some loLast /\
    fb' = fb /\
    apply_out fb stft (ceil hiLast - floor loLast) out = Some out'.
Proof.
  intros H.
  destruct (rd (fHi fb) (numFilterBanks fb - 1)) as [hiLast|] eqn:Hh.
  2:{ unfold applyMelFB in H. rewrite Hh in H. discriminate. }
  destruct (rd (fLo fb) (numFilterBanks fb - 1)) as [loLast|] eqn:Hl.
  2:{ unfold applyMelFB in H. rewrite Hh, Hl in H. discriminate. }
  rewrite (applyMelFB_out fb out stft hiLast loLast Hh Hl) in H.
  destruct (apply_out fb stft (ceil hiLast - floor loLast) out) as [o1|] eqn:E;
    [|discriminate].
  cbn [bind] in H. injection H as <- <-. exists hiLast, loLast. auto.
Qed.

(** X8: after a call of [applyMelFB] that stays inside its blocks, every
    cell [(w, b)] with [w < NoOfWindows], [b < numFilterBanks] and a
    non-empty window [floor(fLo[b]) < ceil(fHi[b])] holds the sum of
    spectrum times weight over the bins [floor(fLo[b]) .. ceil(fHi[b]) - 1],
    and that window lies inside the frame and inside the weight row. *)
Theorem applyMelFB_cell (fb fb' : MelFb) (out out' : list (list R)) (stft : Stft)
  (w b : nat) (hi lo : R) (spectrum weights : list R) :
  applyMelFB fb out stft = Some (fb', out') ->
  (w < Z.to_nat (NoOfWindows stft))%nat ->
  (b < Z.to_nat (numFilterBanks fb))%nat ->
  nth_error (fHi fb) b = Some hi ->
  nth_error (fLo fb) b = Some lo ->
  nth_error (spectrogramm stft) w = Some spectrum ->
  nth_error (fbank fb) b = Some weights ->
  (floor lo < ceil hi)%Z ->
  cell out' w b = Some (sparse_band spectrum weights (floor lo) (ceil hi - floor lo)) /\
  (0 <= floor lo)%Z /\ (ceil hi <= len spectrum)%Z /\ (ceil hi <= len weights)%Z.
Proof.
  intros H Hw Hb Ehi Elo Esp Ewt Hfs.
  apply applyMelFB_inv in H. destruct H as (hiLast & loLast & _ & _ & _ & H).
  apply apply_out_cells in H. destruct H as (_ & Hin & _).
  destruct (Hin w b Hw Hb) as (Hv & Hc). rewrite Hc. clear Hc Hin.
  unfold written. unfold band_value in *. rewrite Ehi, Elo, Esp, Ewt in *.
  cbn [bind] in *.
  destruct (Z.leb_spec (ceil hi - floor lo) 0) as [? | _]; [lia|].
  match goal with |- context [if ?c then Some (Some _) else None] =>
    destruct c eqn:Hc end; [|contradiction].
  apply andb_prop in Hc. destruct Hc as [Hc H4].
  apply andb_prop in Hc. destruct Hc as [Hc H3].
  apply andb_prop in Hc. destruct Hc as [H1 H2].
  apply Z.leb_le in H1, H2, H3, H4.
  split; [reflexivity|]. lia.
Qed.

Lemma applyMelFB_cell_witness :
  exists weights,
    nth_error (fbank fb64) 0 = Some weights /\
    cell [[19 / 5; 52 / 9]] 0 0
    = Some (sparse_band (repeat 1 32%nat) weights (floor 1) (ceil 9 - floor 1)).
Proof.
  destruct fb64_edges as (Hl & _ & Hh).
  exists (row_of 32 (calcEdges 2 32 100 2000) 0).
  assert (Hrow : nth_error (fbank fb64) 0 = Some (row_of 32 (calcEdges 2 32 100 2000) 0))
    by (rewrite fb64_fbank; reflexivity).
  split; [exact Hrow|].
  apply (applyMelFB_cell fb64 fb64 [[0; 0]] [[19 / 5; 52 / 9]] ones32 0 0 9 1
           (repeat 1 32%nat) _ (applyMelFB_64 0 0)).
  - simpl. lia.
  - simpl. lia.
  - rewrite Hh. reflexivity.
  - rewrite Hl. reflexivity.
  - reflexivity.
  - exact Hrow.
  - rewrite (floor_IZR 1), (ceil_IZR 9). lia.
Defined.



Lemma built_last_edges (fftSize numBanks locut hicut : Z) (fb : MelFb) :
  MelFb_new fftSize numBanks locut hicut = Built fb ->
  (0 < numFilterBanks fb)%Z /\
  List.length (fLo fb) = Z.to_nat (numFilterBanks fb) /\
  List.length (fHi fb) = Z.to_nat (numFilterBanks fb) /\
  exists hiLast loLast,
    rd (fHi fb) (numFilterBanks fb - 1) = Some hiLast /\
    rd (fLo fb) (numFilterBanks fb - 1) = Some loLast.
Proof.
  intros Hb. apply MelFb_new_inv in Hb. destruct Hb as (_ & _ & HN & _ & ->).
  destruct (built_shape numBanks (fbSize_of (Z.log2_up (round24 fftSize))) (IZR locut) (IZR hicut) HN)
    as (H1 & _ & _ & _ & Hl & Hh & _).
  rewrite H1. split; [assumption|]. split; [assumption|]. split; [assumption|].
  unfold rd. destruct (Z.ltb_spec (numBanks - 1) 0); [lia|].
  destruct (nth_error (fHi _) (Z.to_nat (numBanks - 1))) as [h|] eqn:Eh.
  2:{ apply nth_error_None in Eh. lia. }
  destruct (nth_error (fLo _) (Z.to_nat (numBanks - 1))) as [l|] eqn:El.
  2:{ apply nth_error_None in El. lia. }
  exists h, l. auto.
Qed.

(** X10: applied to a spectrogram with no windows ([NoOfWindows <= 0]), a
    built object returns the output matrix untouched, whatever its
    dimensions. *)
Theorem applyMelFB_no_windows
  (fftSize numBanks locut hicut : Z) (fb : MelFb) (out : list (list R)) (stft : Stft) :
  MelFb_new fftSize numBanks locut hicut = Built fb ->
  (NoOfWindows stft <= 0)%Z ->
  applyMelFB fb out stft = Some (fb, out).
Proof.
  intros Hb Hn.
  destruct (built_last_edges _ _ _ _ _ Hb) as (_ & _ & _ & hiLast & loLast & Hh & Hl).
  rewrite (applyMelFB_out fb out stft hiLast loLast Hh Hl).
  unfold apply_out. replace (Z.to_nat (NoOfWindows stft)) with 0%nat by lia.
  reflexivity.
Qed.

Lemma applyMelFB_no_windows_witness :
  applyMelFB fb64 [[7]] (mkStft 0 []) = Some (fb64, [[7]]).
Proof.
  apply (applyMelFB_no_windows 64 2 100 2000 fb64 _ _ MelFb_new_64). simpl. lia.
Defined.

(** X11: a built object told of more windows than the spectrogram has
    frames reads a frame that does not exist: the call does not stay
    inside its blocks. *)
Theorem applyMelFB_missing_frame
  (fftSize numBanks locut hicut : Z) (fb : MelFb) (out : list (list R)) (stft : Stft) :
  MelFb_new fftSize numBanks locut hicut = Built fb ->
  (List.length (spectrogramm stft) < Z.to_nat (NoOfWindows stft))%nat ->
  applyMelFB fb out stft = None.
Proof.
  intros Hb Hn.
  destruct (built_last_edges _ _ _ _ _ Hb) as (HN & Ll & Lh & _).
  destruct (applyMelFB fb out stft) as [[fb' out']|] eqn:E; [exfalso | reflexivity].
  apply applyMelFB_inv in E. destruct E as (hiLast & loLast & _ & _ & _ & E).
  apply apply_out_cells in E. destruct E as (_ & Hin & _).
  destruct (Hin (List.length (spectrogramm stft)) 0%nat Hn ltac:(lia)) as (Hv & _).
  apply Hv. unfold band_value.
  destruct (nth_error (fHi fb) 0) as [hi|]; [|reflexivity].
  destruct (nth_error (fLo fb) 0) as [lo|]; [|reflexivity]. cbn [bind].
  replace (nth_error (spectrogramm stft) (List.length (spectrogramm stft))) with (@None (list R)).
  - reflexivity.
  - symmetry. apply nth_error_None. lia.
Qed.

Lemma applyMelFB_missing_frame_witness :
  applyMelFB fb64 [[0; 0]; [0; 0]] (mkStft 2 [repeat 1 32%nat]) = None.
Proof.
  apply (applyMelFB_missing_frame 64 2 100 2000 fb64 _ _ MelFb_new_64). simpl. lia.
Defined.

(** ** The window of a band against the full row *)

Lemma mul_pointwise_firstn (n : nat) :
  forall a b, firstn n (mul_pointwise a b) = mul_pointwise (firstn n a) (firstn n b).
Proof.
  induction n as [|n IH]; intros [|x a] [|y b]; cbn [firstn mul_pointwise]; try reflexivity.
  f_equal. apply IH.
Qed.

Lemma mul_pointwise_skipn (n : nat) :
  forall a b, skipn n (mul_pointwise a b) = mul_pointwise (skipn n a) (skipn n b).
Proof.
  induction n as [|n IH]; intros [|x a] [|y b]; cbn [skipn mul_pointwise]; try reflexivity.
  - destruct (skipn n a); reflexivity.
  - apply IH.
Qed.

Lemma mul_pointwise_nth (a b : list R) (k : nat) (v : R) :
  nth_error (mul_pointwise a b) k = Some v ->
  exists x y, nth_error a k = Some x /\ nth_error b k = Some y /\ v = y * x.
Proof.
  revert a b. induction k as [|k IH]; intros [|x a] [|y b] H;
    cbn [mul_pointwise nth_error] in *; try discriminate.
  - injection H as <-. exists x, y. auto.
  - apply IH. assumption.
Qed.

Lemma sum_list_zero (l : list R) :
  (forall k v, nth_error l k = Some v -> v = 0) -> sum_list l = 0.
Proof.
  induction l as [|x l IH]; intros H; [reflexivity|].
  unfold sum_list in *. cbn [fold_right].
  rewrite (H 0%nat x eq_refl), IH; [lra|].
  intros k v Hk. apply (H (S k) v Hk).
Qed.

Lemma firstn_skipn_firstn {A : Type} (a b F : nat) (l : list A) :
  (a + b <= F)%nat -> firstn b (skipn a (firstn F l)) = firstn b (skipn a l).
Proof.
  intros H. rewrite skipn_firstn_comm, firstn_firstn. f_equal. lia.
Qed.

(** If the weights vanish outside the bins [a .. a+b-1], the product over
    the first [F] bins is the product over that window. *)
Lemma dense_window (F a b : nat) (s w : list R) :
  (a + b <= F)%nat ->
  (forall k x, nth_error w k = Some x -> (k < a \/ a + b <= k)%nat -> x = 0) ->
  sum_list (mul_pointwise (firstn F s) (firstn F w))
  = sum_list (mul_pointwise (firstn b (skipn a s)) (firstn b (skipn a w))).
Proof.
  intros Hab Hz.
  set (P := mul_pointwise (firstn F s) (firstn F w)).
  assert (HP : forall k v, nth_error P k = Some v -> (k < a \/ a + b <= k)%nat -> v = 0).
  { intros k v Hk Hout. apply mul_pointwise_nth in Hk.
    destruct Hk as (x & y & _ & Hy & ->).
    rewrite nth_error_firstn in Hy. destruct (k <? F)%nat; [|discriminate].
    rewrite (Hz k y Hy Hout). lra. }
  rewrite <- (firstn_skipn a P), sum_list_app.
  rewrite <- (firstn_skipn b (skipn a P)), sum_list_app.
  rewrite (sum_list_zero (firstn a P)).
  2:{ intros k v Hk. rewrite nth_error_firstn in Hk.
      destruct (Nat.ltb_spec k a); [|discriminate]. apply (HP k v Hk). lia. }
  rewrite (sum_list_zero (skipn b (skipn a P))).
  2:{ intros k v Hk. rewrite skipn_skipn, nth_error_skipn in Hk.
      apply (HP _ v Hk). lia. }
  unfold P. rewrite mul_pointwise_skipn, mul_pointwise_firstn.
  rewrite !firstn_skipn_firstn by assumption. lra.
Qed.

Lemma window_one_more (b : nat) :
  forall (A B : list R) (x y : R),
    nth_error A b = Some x -> nth_error B b = Some y ->
    sum_list (mul_pointwise (firstn (S b) A) (firstn (S b) B))
    = sum_list (mul_pointwise (firstn b A) (firstn b B)) + y * x.
Proof.
  induction b as [|b IH]; intros [|x0 A] [|y0 B] x y HA HB;
    cbn [nth_error] in *; try discriminate.
  - injection HA as ->. injection HB as ->.
    unfold sum_list. simpl. lra.
  - specialize (IH A B x y HA HB).
    change (firstn (S (S b)) (x0 :: A)) with (x0 :: firstn (S b) A).
    change (firstn (S (S b)) (y0 :: B)) with (y0 :: firstn (S b) B).
    change (firstn (S b) (x0 :: A)) with (x0 :: firstn b A).
    change (firstn (S b) (y0 :: B)) with (y0 :: firstn b B).
    cbn [mul_pointwise]. unfold sum_list in *. cbn [fold_right]. rewrite IH. lra.
Qed.

(** X12: in a built object, for a band whose three boundaries are whole
    bins with [0 <= fLo < fCenter < fHi < fbSize], the full-width product of
    a frame with the weight row exceeds the sum over the window of
    [applyMelFB] by the frame's value at bin [fHi] divided by
    [fHi - fCenter]. *)
Theorem dense_minus_sparse
  (fftSize numBanks locut hicut : Z) (fb : MelFb) (band : nat) (zh : Z)
  (spectrum : list R) (sh : R) :
  MelFb_new fftSize numBanks locut hicut = Built fb ->
  (band < Z.to_nat (numFilterBanks fb))%nat ->
  load (fHi fb) band = IZR zh ->
  0 <= load (fLo fb) band < load (centerBins fb) band ->
  load (centerBins fb) band < load (fHi fb) band < IZR (fbSize fb) ->
  nth_error spectrum (Z.to_nat zh) = Some sh ->
  let lo := load (fLo fb) band in
  let c := load (centerBins fb) band in
  let hi := load (fHi fb) band in
  exists row, nth_error (fbank fb) band = Some row /\
    dense_band fb spectrum row
    = sparse_band spectrum row (floor lo) (ceil hi - floor lo) + sh / (hi - c).
Proof.
  intros Hb Hband Eh [Hl0 Hlc] [Hch HhF] Hsh. cbv zeta.
  destruct (built_band _ _ _ _ _ band Hb Hband) as (zl & zc & El & Ec & HF & Hrow).
  rewrite El, Ec, Eh in *. rewrite (floor_IZR zl), (ceil_IZR zh).
  apply le_IZR in Hl0. apply lt_IZR in Hlc, Hch, HhF.
  eexists. split; [exact Hrow|].
  set (F := Z.to_nat (fbSize fb)).
  set (row := fst (calcRow (IZR zl) (IZR zc) (IZR zh) 0 F 0)).
  assert (Hw : forall k : Z, (0 <= k < fbSize fb)%Z ->
            ((zc < k <= zh)%Z ->
               nth_error row (Z.to_nat k) = Some (1 - (IZR k - 1 - IZR zc) / (IZR zh - IZR zc)))
            /\ ((k <= zl \/ zh < k)%Z -> nth_error row (Z.to_nat k) = Some 0)).
  { intros k Hk.
    destruct (row_weights zl zc (IZR zh) F k ltac:(lia) ltac:(unfold F; lia))
      as (_ & R2 & R3). cbv zeta in *. split.
    - intros H. apply R2; [lia | apply IZR_le; lia].
    - intros [H | H]; apply R3; [left; assumption|].
      right. split; [apply IZR_lt; assumption | lia]. }
  unfold dense_band, sparse_band. fold F.
  rewrite (dense_window F (Z.to_nat zl) (S (Z.to_nat (zh - zl))) spectrum row).
  - assert (Hrh : nth_error (skipn (Z.to_nat zl) row) (Z.to_nat (zh - zl))
                  = Some (1 / (IZR zh - IZR zc))).
    { rewrite nth_error_skipn. replace (Z.to_nat zl + Z.to_nat (zh - zl))%nat
        with (Z.to_nat zh) by lia.
      rewrite (proj1 (Hw zh ltac:(lia))) by lia. f_equal.
      assert (IZR zc < IZR zh) by (apply IZR_lt; lia). field. lra. }
    assert (Hsx : nth_error (skipn (Z.to_nat zl) spectrum) (Z.to_nat (zh - zl)) = Some sh).
    { rewrite nth_error_skipn. replace (Z.to_nat zl + Z.to_nat (zh - zl))%nat
        with (Z.to_nat zh) by lia. exact Hsh. }
    rewrite (window_one_more _ _ _ _ _ Hsx Hrh). unfold Rdiv. lra.
  - unfold F. lia.
  - intros k x Hk Hout.
    assert (HkF : (k < F)%nat).
    { rewrite <- (calcRow_length (IZR zl) (IZR zc) (IZR zh) F 0 0).
      apply nth_error_Some. fold row. congruence. }
    destruct (Hw (Z.of_nat k) ltac:(unfold F in HkF; lia)) as (_ & H0).
    rewrite Nat2Z.id in H0. rewrite H0 in Hk by lia. congruence.
Qed.

Lemma dense_minus_sparse_witness :
  exists row, nth_error (fbank fb64) 0 = Some row /\
    dense_band fb64 (repeat 1 32%nat) row
    = sparse_band (repeat 1 32%nat) row (floor 1) (ceil 9 - floor 1) + 1 / (9 - 4).
Proof.
  destruct fb64_edges as (Hl & Hc & Hh).
  destruct (dense_minus_sparse 64 2 100 2000 fb64 0 9 (repeat 1 32%nat) 1 MelFb_new_64)
    as (row & Hrow & Hd).
  - simpl. lia.
  - rewrite Hh. reflexivity.
  - rewrite Hl, Hc. unfold load. cbn [nth]. lra.
  - rewrite Hc, Hh. unfold load. cbn [nth]. simpl (fbSize fb64). lra.
  - reflexivity.
  - exists row. split; [exact Hrow|].
    rewrite Hl, Hc, Hh in Hd. unfold load in Hd. cbn [nth] in Hd. exact Hd.
Defined.

(** X13: in a built object, for a band with [0 <= fLo <= fCenter <= fHi]
    whose upper boundary is not a whole bin and whose window ends inside
    the row, the sum over the window of [applyMelFB] equals the full-width
    product of the frame with the weight row. *)
Theorem sparse_equals_dense_open_edge
  (fftSize numBanks locut hicut : Z) (fb : MelFb) (band : nat) (spectrum : list R) :
  MelFb_new fftSize numBanks locut hicut = Built fb ->
  (band < Z.to_nat (numFilterBanks fb))%nat ->
  0 <= load (fLo fb) band <= load (centerBins fb) band ->
  load (centerBins fb) band <= load (fHi fb) band ->
  load (fHi fb) band < IZR (ceil (load (fHi fb) band)) ->
  (ceil (load (fHi fb) band) <= fbSize fb)%Z ->
  exists row, nth_error (fbank fb) band = Some row /\
    sparse_band spectrum row (floor (load (fLo fb) band))
                (ceil (load (fHi fb) band) - floor (load (fLo fb) band))
    = dense_band fb spectrum row.
Proof.
  intros Hb Hband [Hl0 Hlc] Hch Hopen HhF.
  destruct (built_band _ _ _ _ _ band Hb Hband) as (zl & zc & El & Ec & HF & Hrow).
  rewrite El, Ec in *. rewrite (floor_IZR zl).
  set (hi := load (fHi fb) band) in *.
  apply le_IZR in Hl0, Hlc.
  assert (Hlh : (zl < ceil hi)%Z).
  { apply lt_IZR. apply IZR_le in Hlc. lra. }
  eexists. split; [exact Hrow|].
  set (F := Z.to_nat (fbSize fb)).
  set (row := fst (calcRow (IZR zl) (IZR zc) hi 0 F 0)).
  unfold dense_band, sparse_band. fold F. symmetry.
  apply dense_window; [unfold F; lia|].
  intros k x Hk Hout.
  assert (HkF : (k < F)%nat).
  { rewrite <- (calcRow_length (IZR zl) (IZR zc) hi F 0 0).
    apply nth_error_Some. fold row. congruence. }
  unfold row in Hk. rewrite calcRow_nth in Hk by assumption.
  rewrite Z.add_0_l in Hk.
  assert (Hk0 : fst (bin_step (IZR zl) (IZR zc) hi (Z.of_nat k)
                       (snd (calcRow (IZR zl) (IZR zc) hi 0 k 0))) = 0).
  { destruct Hout as [Hlt | Hge].
    - assert (IZR (Z.of_nat k) <= IZR zl) by (apply IZR_le; lia).
      apply IZR_le in Hlc.
      rewrite bin_step_zero; [reflexivity | left; lra | left; lra].
    - assert (IZR (ceil hi) <= IZR (Z.of_nat k)) by (apply IZR_le; lia).
      rewrite bin_step_zero; [reflexivity | right; lra | right; lra]. }
  congruence.
Qed.

Lemma sparse_equals_dense_open_edge_witness :
  exists row, nth_error (fbank fb64) 1 = Some row /\
    sparse_band (repeat 1 32%nat) row (floor 4) (ceil (63 / 4) - floor 4)
    = dense_band fb64 (repeat 1 32%nat) row.
Proof.
  destruct fb64_edges as (Hl & Hc & Hh).
  destruct (sparse_equals_dense_open_edge 64 2 100 2000 fb64 1 (repeat 1 32%nat)
              MelFb_new_64) as (row & Hrow & Hd).
  - simpl. lia.
  - rewrite Hl, Hc. unfold load. cbn [nth]. lra.
  - rewrite Hc, Hh. unfold load. cbn [nth]. lra.
  - rewrite Hh. unfold load. cbn [nth]. rewrite ceil_63_4. lra.
  - rewrite Hh. unfold load. cbn [nth]. rewrite ceil_63_4. simpl (fbSize fb64). lia.
  - exists row. split; [exact Hrow|].
    rewrite Hl, Hh in Hd. unfold load in Hd. cbn [nth] in Hd. exact Hd.
Defined.

(** ** Where the windows stay inside the rows *)



(** ** A band without rising edge *)

(** The accumulator before bin [j] when the centre bin is not above the
    lower boundary: no bin rises, and the falling edge starts from 0. *)
Lemma accumulator_flat (zc : Z) (lo hi : R) :
  (0 <= zc)%Z -> IZR zc <= lo ->
  forall j : nat,
    let x := snd (calcRow lo (IZR zc) hi 0 j 0) in
    ((Z.of_nat j <= zc + 1)%Z -> x = 0) /\
    ((zc + 1 <= Z.of_nat j)%Z -> IZR (Z.of_nat j) - 1 <= hi ->
       x = - (IZR (Z.of_nat j) - IZR zc - 1) / (hi - IZR zc)).
Proof.
  intros Hz Hlo. induction j as [|j IH]; cbv zeta in *.
  - cbn [calcRow snd]. split; [reflexivity | intros H; exfalso; lia].
  - destruct IH as (I1 & I2).
    rewrite calcRow_snd_S, Z.add_0_l. rewrite Nat2Z.inj_succ, succ_IZR.
    set (xj := snd (calcRow lo (IZR zc) hi 0 j 0)) in *.
    set (zj := Z.of_nat j) in *.
    split.
    + intros H. assert (IZR zj <= IZR zc) by (apply IZR_le; lia).
      rewrite bin_step_zero; [apply I1; lia | left; lra | left; lra].
    + intros H Hhi. destruct (Z.eq_dec zj zc) as [E | E].
      * assert (IZR zj <= IZR zc) by (apply IZR_le; lia).
        rewrite bin_step_zero; [| left; lra | left; lra].
        cbn [snd]. rewrite I1 by lia. rewrite E.
        replace (- (IZR zc + 1 - IZR zc - 1)) with 0 by lra.
        unfold Rdiv. rewrite Rmult_0_l. reflexivity.
      * assert (Hc : IZR zc < IZR zj) by (apply IZR_lt; lia).
        rewrite bin_step_fall by (try right; lra).
        cbn [snd]. rewrite I2 by (try lia; lra). field. lra.
Qed.

(** X15: in a built object, a band whose centre bin is not above its lower
    boundary ([0 <= fCenter <= fLo], the two coincide when few bins are
    available) has no rising edge: its weights are 0 up to bin
    [fCenter + 1] and [-(k - 1 - fCenter) / (fHi - fCenter)] on
    [fCenter < k <= fHi], so no weight of the band is positive. *)
Theorem flat_band_weights
  (fftSize numBanks locut hicut : Z) (fb : MelFb) (band : nat) :
  MelFb_new fftSize numBanks locut hicut = Built fb ->
  (band < Z.to_nat (numFilterBanks fb))%nat ->
  0 <= load (centerBins fb) band <= load (fLo fb) band ->
  let c := load (centerBins fb) band in
  let hi := load (fHi fb) band in
  exists row, nth_error (fbank fb) band = Some row /\
    (forall k, (0 <= k < fbSize fb)%Z -> c < IZR k <= hi ->
       nth_error row (Z.to_nat k) = Some (- (IZR k - 1 - c) / (hi - c))) /\
    (forall k w, nth_error row k = Some w -> w <= 0).
Proof.
  intros Hb Hband [Hc0 Hcl]. cbv zeta.
  destruct (built_band _ _ _ _ _ band Hb Hband) as (zl & zc & El & Ec & HF & Hrow).
  rewrite El, Ec in *. apply le_IZR in Hc0.
  set (hi := load (fHi fb) band) in *.
  set (F := Z.to_nat (fbSize fb)) in *.
  eexists. split; [exact Hrow|].
  assert (Hw : forall k : nat, (k < F)%nat ->
            nth_error (fst (calcRow (IZR zl) (IZR zc) hi 0 F 0)) k
            = Some (if Rlt_dec (IZR zc) (IZR (Z.of_nat k))
                    then if Rle_dec (IZR (Z.of_nat k)) hi
                         then - (IZR (Z.of_nat k) - 1 - IZR zc) / (hi - IZR zc)
                         else 0
                    else 0)).
  { intros k Hk. rewrite calcRow_nth by assumption. rewrite Z.add_0_l. f_equal.
    destruct (accumulator_flat zc (IZR zl) hi Hc0 Hcl k) as (A1 & A2). cbv zeta in *.
    destruct (Rlt_dec (IZR zc) (IZR (Z.of_nat k))) as [C1 | C1].
    - destruct (Rle_dec (IZR (Z.of_nat k)) hi) as [C2 | C2].
      + rewrite bin_step_fall by (try right; lra). cbn [fst].
        pose proof (lt_IZR _ _ C1) as C1z.
        rewrite A2 by (try lia; lra). field. lra.
      + rewrite bin_step_zero; [reflexivity | right; lra | right; lra].
    - rewrite bin_step_zero; [reflexivity | left; lra | left; lra]. }
  split.
  - intros k Hk [H1 H2]. rewrite Hw by (unfold F; lia). rewrite Z2Nat.id by lia.
    destruct (Rlt_dec (IZR zc) (IZR k)); [|contradiction].
    destruct (Rle_dec (IZR k) hi); [reflexivity | contradiction].
  - intros k w Hk.
    assert (HkF : (k < F)%nat).
    { rewrite <- (calcRow_length (IZR zl) (IZR zc) hi F 0 0).
      apply nth_error_Some. congruence. }
    rewrite Hw in Hk by assumption. injection Hk as <-.
    destruct (Rlt_dec (IZR zc) (IZR (Z.of_nat k))) as [C1 | C1]; [|lra].
    destruct (Rle_dec (IZR (Z.of_nat k)) hi) as [C2 | C2]; [|lra].
    pose proof (lt_IZR _ _ C1) as C1z.
    assert (IZR zc + 1 <= IZR (Z.of_nat k)) by (rewrite <- plus_IZR; apply IZR_le; lia).
    assert (Hd : 0 < hi - IZR zc) by lra.
    assert (0 <= (IZR (Z.of_nat k) - 1 - IZR zc) / (hi - IZR zc)).
    { apply Rmult_le_pos; [lra | left; apply Rinv_0_lt_compat; assumption]. }
    unfold Rdiv in *. rewrite Ropp_mult_distr_l_reverse. lra.
Qed.

(** Mel steps when [1 + hiCut/700] is [1 + loCut/700] times the cube of
    [r]: the two centres of a two-band configuration multiply
    [1 + loCut/700] by [r] and by [r*r]. *)
Lemma mel_centers_cube (lo hi r : R) :
  -700 < lo -> 0 < r -> 1 + hi / 700 = (1 + lo / 700) * (r * (r * r)) ->
  melToLin (linToMel lo + (INR 0 + 1) * melDelta 2 lo hi)
  = 700 * ((1 + lo / 700) * r - 1) /\
  melToLin (linToMel lo + (INR 1 + 1) * melDelta 2 lo hi)
  = 700 * ((1 + lo / 700) * (r * r) - 1).
Proof.
  intros Hlo Hr Hcube.
  assert (HA : 0 < 1 + lo / 700) by lra.
  assert (Hhi : -700 < hi).
  { assert (0 < (1 + lo / 700) * (r * (r * r))) by (repeat apply Rmult_lt_0_compat; lra).
    lra. }
  assert (Hln : ln (1 + hi / 700) = ln (1 + lo / 700) + 3 * ln r).
  { rewrite Hcube, !ln_mult; try lra; repeat apply Rmult_lt_0_compat; lra. }
  unfold melDelta. simpl (INR 0). simpl (INR 1). simpl (2 + 1)%Z. split.
  - replace (linToMel lo + (0 + 1) * ((linToMel hi - linToMel lo) / 3))
      with (linToMel lo + / 3 * (linToMel hi - linToMel lo)) by lra.
    rewrite melToLin_between by lra. rewrite Hln.
    replace ((1 - / 3) * ln (1 + lo / 700) + / 3 * (ln (1 + lo / 700) + 3 * ln r))
      with (ln ((1 + lo / 700) * r)) by (rewrite ln_mult by lra; lra).
    rewrite exp_ln by (apply Rmult_lt_0_compat; lra). reflexivity.
  - replace (linToMel lo + (1 + 1) * ((linToMel hi - linToMel lo) / 3))
      with (linToMel lo + 2 / 3 * (linToMel hi - linToMel lo)) by lra.
    rewrite melToLin_between by lra. rewrite Hln.
    replace ((1 - 2 / 3) * ln (1 + lo / 700) + 2 / 3 * (ln (1 + lo / 700) + 3 * ln r))
      with (ln ((1 + lo / 700) * (r * r)))
      by (rewrite !ln_mult by (try apply Rmult_lt_0_compat; lra); lra).
    rewrite exp_ln by (repeat apply Rmult_lt_0_compat; lra). reflexivity.
Qed.

Lemma binSize_8 : binSize 8 = 8000 / 15.
Proof. unfold binSize, SAMPLE_RATE. lra. Qed.

(** [MelFb(16, 2, 268, 2567)]: eight bins, band 0 has [fLo = fCenter = 1]
    and [fHi = 3]. *)
Lemma edges_16_flat :
  let e := calcEdges 2 8 268 2567 in
  load (eLo e) 0 = 1 /\ load (fCenter e) 0 = 1 /\ load (eHi e) 0 = 3.
Proof.
  cbv zeta.
  destruct (mel_centers_cube 268 2567 (3 / 2)) as (C0 & C1); [lra | lra | lra |].
  rewrite (calcEdges_lo0 2 8 268 2567 ltac:(lia)).
  rewrite (calcEdges_center 2 8 268 2567 ltac:(lia) 0 ltac:(simpl; lia)).
  rewrite (calcEdges_hi 2 8 268 2567 ltac:(lia) 0 ltac:(simpl; lia)).
  unfold center_at. rewrite C0, C1, binSize_8.
  split; [|split]; [apply (roundf_eq 1) | apply (roundf_eq 1) | apply (roundf_eq 3)]; lra.
Qed.

Lemma flat_band_weights_witness :
  exists fb row, MelFb_new 16 2 268 2567 = Built fb /\
    nth_error (fbank fb) 0 = Some row /\
    nth_error row (Z.to_nat 3) = Some (- (3 - 1 - 1) / (3 - 1)).
Proof.
  pose proof edges_16_flat as He. cbv zeta in He. destruct He as (El & Ec & Eh).
  assert (Hb : MelFb_new 16 2 268 2567 = Built (built 2 8 268 2567)).
  { rewrite MelFb_new_built by lia. reflexivity. }
  destruct (flat_band_weights 16 2 268 2567 _ 0 Hb) as (row & Hrow & Hneg & _).
  - simpl. lia.
  - unfold centerBins. cbn [built numFilterBanks fbSize loCut hiCut fLo].
    rewrite El, Ec. lra.
  - exists (built 2 8 268 2567), row. split; [exact Hb|]. split; [exact Hrow|].
    unfold centerBins in Hneg. cbn [built numFilterBanks fbSize loCut hiCut fLo fHi] in Hneg.
    rewrite Ec, Eh in Hneg. apply (Hneg 3%Z); [lia | lra].
Defined.

(** ** Scaling the spectrogram *)

Lemma sum_mul_scale (a : R) (A B : list R) :
  sum_list (mul_pointwise (map (Rmult a) A) B) = a * sum_list (mul_pointwise A B).
Proof.
  revert B. induction A as [|x A IH]; intros [|y B]; cbn [map mul_pointwise];
    unfold sum_list in *; cbn [fold_right]; try lra.
  rewrite IH. lra.
Qed.

Lemma sparse_band_scale (a : R) (spectrum weights : list R) (loF fs : Z) :
  sparse_band (map (Rmult a) spectrum) weights loF fs
  = a * sparse_band spectrum weights loF fs.
Proof. unfold sparse_band. rewrite skipn_map, firstn_map. apply sum_mul_scale. Qed.

Lemma band_value_scale (a : R) (fb : MelFb) (stft : Stft) (M : Z) (w b : nat) :
  band_value fb (scale_stft a stft) M w b
  = match band_value fb stft M w b with
    | Some (Some v) => Some (Some (a * v))
    | Some None => Some None
    | None => None
    end.
Proof.
  unfold band_value. cbn [scale_stft spectrogramm].
  destruct (nth_error (fHi fb) b) as [hi|]; [|reflexivity].
  destruct (nth_error (fLo fb) b) as [lo|]; [|reflexivity]. cbn [bind].
  rewrite nth_error_map.
  destruct (nth_error (spectrogramm stft) w) as [spectrum|]; [|reflexivity].
  cbn [option_map bind].
  destruct (nth_error (fbank fb) b) as [weights|]; [|reflexivity]. cbn [bind].
  rewrite sparse_band_scale. unfold len. rewrite length_map.
  destruct (ceil hi - floor lo <=? 0)%Z; [reflexivity|].
  match goal with |- context [if ?c then _ else _] => destruct c end; reflexivity.
Qed.

Lemma band_out_scale (a : R) (fb : MelFb) (stft : Stft) (M : Z) (w b : nat)
  (o o' o2 : list (list R)) :
  band_out fb stft M w b o = Some o' -> same_shape o o2 ->
  exists o2', band_out fb (scale_stft a stft) M w b o2 = Some o2' /\ same_shape o' o2'.
Proof.
  intros H Hs. pose proof (band_out_cells _ _ _ _ _ _ _ H) as (_ & Hs1 & _).
  unfold band_out in *. rewrite band_value_scale.
  destruct (band_value fb stft M w b) as [ov|]; [|discriminate]. cbn [bind] in H.
  assert (Hd : put_cell o w b ov <> None) by congruence.
  apply put_cell_defined in Hd. destruct Hd as (row & Hr & Hb).
  destruct (same_shape_row o o2 w row Hs Hr) as (row2 & Hr2 & Hl).
  set (ov2 := match ov with Some v => Some (a * v) | None => None end).
  assert (Hd2 : put_cell o2 w b ov2 <> None).
  { apply put_cell_defined. exists row2. split; [assumption|].
    rewrite Hl. intros Hne. apply Hb. unfold ov2 in Hne. destruct ov; congruence. }
  replace (match ov with
           | Some v => Some (Some (a * v)) | None => Some None end) with (Some ov2)
    by (unfold ov2; destruct ov; reflexivity).
  cbn [bind]. destruct (put_cell o2 w b ov2) as [o2'|] eqn:E; [|contradiction].
  exists o2'. split; [reflexivity|].
  assert (Hs2 : same_shape o2 o2').
  { destruct ov2 as [v2|].
    - apply put_cell_some in E. apply E.
    - rewrite put_cell_none in E. destruct (nth_error o2 w); [|discriminate].
      injection E as <-. reflexivity. }
  unfold same_shape in *. congruence.
Qed.

Lemma for_loop_transfer
  (f g : nat -> list (list R) -> option (list (list R))) (idx : list nat) :
  (forall i o o' o2, f i o = Some o' -> same_shape o o2 ->
     exists o2', g i o2 = Some o2' /\ same_shape o' o2') ->
  forall o o' o2, for_loop f idx o = Some o' -> same_shape o o2 ->
    exists o2', for_loop g idx o2 = Some o2' /\ same_shape o' o2'.
Proof.
  intros Hfg. induction idx as [|i idx IH]; intros o o' o2 H Hs.
  - injection H as <-. exists o2. split; [reflexivity | assumption].
  - cbn [for_loop] in *. destruct (f i o) as [o1|] eqn:E; [|discriminate].
    cbn [bind] in H. destruct (Hfg i o o1 o2 E Hs) as (o21 & E2 & Hs1).
    rewrite E2. cbn [bind]. apply (IH o1 o' o21 H Hs1).
Qed.

(** X16: [applyMelFB] is homogeneous in the spectrogram.  If a call stays
    inside its blocks, so does the call on the spectrogram multiplied by
    [a], with the same output matrix to start from; every cell with a
    non-empty window then holds [a] times the value of the first call, and
    the cells outside the first [NoOfWindows] rows or [numFilterBanks]
    columns are the same in both results. *)
Theorem applyMelFB_scale (a : R) (fb fb' : MelFb) (out out1 : list (list R)) (stft : Stft) :
  applyMelFB fb out stft = Some (fb', out1) ->
  exists out2,
    applyMelFB fb out (scale_stft a stft) = Some (fb', out2) /\
    (forall i j hi lo,
       (i < Z.to_nat (NoOfWindows stft))%nat ->
       (j < Z.to_nat (numFilterBanks fb))%nat ->
       nth_error (fHi fb) j = Some hi -> nth_error (fLo fb) j = Some lo ->
       (floor lo < ceil hi)%Z ->
       exists v, cell out1 i j = Some v /\ cell out2 i j = Some (a * v)) /\
    (forall i j, ~ ((i < Z.to_nat (NoOfWindows stft))%nat /\
                    (j < Z.to_nat (numFilterBanks fb))%nat) ->
                 cell out2 i j = cell out1 i j).
Proof.
  intros H. apply applyMelFB_inv in H.
  destruct H as (hiLast & loLast & Hh & Hl & -> & H).
  set (M := (ceil hiLast - floor loLast)%Z) in *.
  assert (H2 : exists out2, apply_out fb (scale_stft a stft) M out = Some out2).
  { unfold apply_out in *. cbn [scale_stft NoOfWindows].
    destruct (for_loop_transfer
                (fun w => for_loop (band_out fb stft M w)
                                   (seq 0 (Z.to_nat (numFilterBanks fb))))
                (fun w => for_loop (band_out fb (scale_stft a stft) M w)
                                   (seq 0 (Z.to_nat (numFilterBanks fb))))
                (seq 0 (Z.to_nat (NoOfWindows stft)))) with (o := out) (o' := out1) (o2 := out)
      as (out2 & E & _); [| exact H | reflexivity | exists out2; exact E].
    intros w o o' o2 Hf Hs.
    apply (for_loop_transfer (band_out fb stft M w) (band_out fb (scale_stft a stft) M w)
             (seq 0 (Z.to_nat (numFilterBanks fb)))) with (o := o); try assumption.
    intros b p p' p2 Hp Hps. apply (band_out_scale a fb stft M w b p p' p2 Hp Hps). }
  destruct H2 as (out2 & H2). exists out2.
  split; [rewrite (applyMelFB_out fb out _ hiLast loLast Hh Hl); fold M; rewrite H2;
          reflexivity|].
  apply apply_out_cells in H. destruct H as (_ & Hin1 & Hout1).
  apply apply_out_cells in H2. destruct H2 as (_ & Hin2 & Hout2).
  cbn [scale_stft NoOfWindows] in Hin2, Hout2.
  split.
  - intros i j hi lo Hi Hj Ehi Elo Hfs.
    destruct (Hin1 i j Hi Hj) as (Hv & Hc1). destruct (Hin2 i j Hi Hj) as (_ & Hc2).
    unfold written in *. rewrite band_value_scale in Hc2.
    assert (Hsome : exists v, band_value fb stft M i j = Some (Some v)).
    { unfold band_value in *. rewrite Ehi, Elo in *. cbn [bind] in *.
      destruct (nth_error (spectrogramm stft) i) as [sp|]; [|contradiction].
      destruct (nth_error (fbank fb) j) as [wt|]; [|contradiction]. cbn [bind] in *.
      destruct (Z.leb_spec (ceil hi - floor lo) 0); [lia|].
      match goal with |- context [if ?c then _ else _] => destruct c end;
        [eexists; reflexivity | contradiction]. }
    destruct Hsome as (v & Ev). rewrite Ev in *. exists v. auto.
  - intros i j Hn. rewrite (Hout1 i j Hn), (Hout2 i j Hn). reflexivity.
Qed.

Lemma applyMelFB_scale_witness :
  exists out2,
    applyMelFB fb64 [[0; 0]] (scale_stft 3 ones32) = Some (fb64, out2) /\
    cell out2 0 0 = Some (3 * (19 / 5)).
Proof.
  destruct fb64_edges as (Hl & _ & Hh).
  destruct (applyMelFB_scale 3 fb64 fb64 [[0; 0]] _ ones32 (applyMelFB_64 0 0))
    as (out2 & H2 & Hc & _).
  exists out2. split; [exact H2|].
  destruct (Hc 0%nat 0%nat 9 1) as (v & Hv1 & Hv2).
  - simpl. lia.
  - simpl. lia.
  - rewrite Hh. reflexivity.
  - rewrite Hl. reflexivity.
  - rewrite (floor_IZR 1), (ceil_IZR 9). lia.
  - cbn in Hv1. injection Hv1 as <-. exact Hv2.
Defined.

(** ** When a call stays inside its blocks *)

Lemma for_loop_defined (f : nat -> list (list R) -> option (list (list R)))
  (idx : list nat) :
  forall o,
    (forall i o1, In i idx -> same_shape o o1 ->
       exists o2, f i o1 = Some o2 /\ same_shape o1 o2) ->
    exists o', for_loop f idx o = Some o' /\ same_shape o o'.
Proof.
  induction idx as [|i idx IH]; intros o Hf.
  - exists o. split; reflexivity.
  - cbn [for_loop]. destruct (Hf i o (or_introl eq_refl) eq_refl) as (o1 & E & Hs).
    rewrite E. cbn [bind].
    destruct (IH o1) as (o' & E' & Hs').
    + intros j o2 Hj Hs2. apply Hf; [right; assumption|].
      unfold same_shape in *. congruence.
    + exists o'. split; [exact E'|]. unfold same_shape in *. congruence.
Qed.

(** X17: a built object applied within its contract stays inside its
    blocks.  If every band's window starts at a bin [>= 0], ends at a bin
    [<= fbSize] and is not wider than the window of the last band (the
    length of the scratch blocks), the spectrogram has [NoOfWindows] frames
    of at least [fbSize] values, and the output matrix has [NoOfWindows]
    rows of at least [numFilterBanks] cells, [applyMelFB] returns, with the
    object unchanged. *)
Theorem applyMelFB_in_bounds
  (fftSize numBanks locut hicut : Z) (fb : MelFb) (out : list (list R)) (stft : Stft)
  (hiLast loLast : R) :
  MelFb_new fftSize numBanks locut hicut = Built fb ->
  rd (fHi fb) (numFilterBanks fb - 1) = Some hiLast ->
  rd (fLo fb) (numFilterBanks fb - 1) = Some loLast ->
  (forall b hi lo, nth_error (fHi fb) b = Some hi -> nth_error (fLo fb) b = Some lo ->
     (0 <= floor lo)%Z /\ (ceil hi <= fbSize fb)%Z /\
     (ceil hi - floor lo <= ceil hiLast - floor loLast)%Z) ->
  (forall w, (w < Z.to_nat (NoOfWindows stft))%nat ->
     exists spectrum, nth_error (spectrogramm stft) w = Some spectrum /\
                      (fbSize fb <= len spectrum)%Z) ->
  (forall w, (w < Z.to_nat (NoOfWindows stft))%nat ->
     exists row, nth_error out w = Some row /\
                 (Z.to_nat (numFilterBanks fb) <= List.length row)%nat) ->
  exists out', applyMelFB fb out stft = Some (fb, out').
Proof.
  intros Hb Hh Hl Hwin Hfr Hout.
  rewrite (applyMelFB_out fb out stft hiLast loLast Hh Hl).
  set (M := (ceil hiLast - floor loLast)%Z) in *.
  destruct (built_last_edges _ _ _ _ _ Hb) as (HN & Ll & Lh & _).
  assert (Hrows : forall b, (b < Z.to_nat (numFilterBanks fb))%nat ->
            exists weights, nth_error (fbank fb) b = Some weights /\
                            len weights = fbSize fb).
  { intros b Hlt.
    destruct (built_band _ _ _ _ _ b Hb Hlt) as (zl & zc & _ & _ & HF & Hrow).
    eexists. split; [exact Hrow|]. unfold len. rewrite calcRow_length. lia. }
  assert (Hval : forall w b, (w < Z.to_nat (NoOfWindows stft))%nat ->
            (b < Z.to_nat (numFilterBanks fb))%nat ->
            band_value fb stft M w b <> None).
  { intros w b Hw Hlt. unfold band_value.
    destruct (nth_error (fHi fb) b) as [hi|] eqn:Ehi.
    2:{ apply nth_error_None in Ehi. lia. }
    destruct (nth_error (fLo fb) b) as [lo|] eqn:Elo.
    2:{ apply nth_error_None in Elo. lia. }
    destruct (Hfr w Hw) as (spectrum & Esp & Hsp).
    destruct (Hrows b Hlt) as (weights & Ewt & Hwt).
    destruct (Hwin b hi lo Ehi Elo) as (H0 & H1 & H2).
    rewrite Esp, Ewt. cbn [bind].
    destruct (ceil hi - floor lo <=? 0)%Z; [discriminate|].
    destruct (Z.leb_spec (ceil hi - floor lo) M); [|lia].
    destruct (Z.leb_spec 0 (floor lo)); [|lia].
    destruct (Z.leb_spec (floor lo + (ceil hi - floor lo)) (len spectrum)); [|lia].
    destruct (Z.leb_spec (floor lo + (ceil hi - floor lo)) (len weights)); [|lia].
    discriminate. }
  unfold apply_out.
  destruct (for_loop_defined
              (fun w => for_loop (band_out fb stft M w)
                                 (seq 0 (Z.to_nat (numFilterBanks fb))))
              (seq 0 (Z.to_nat (NoOfWindows stft))) out) as (out' & E & _).
  - intros w o1 Hw Hs1. apply in_seq in Hw.
    apply for_loop_defined. intros b o2 Hbn Hs2. apply in_seq in Hbn.
    assert (Hs : same_shape out o2) by (unfold same_shape in *; congruence).
    destruct (Hout w ltac:(lia)) as (row & Er & Hrl).
    destruct (same_shape_row out o2 w row Hs Er) as (row2 & Er2 & Hl2).
    unfold band_out.
    destruct (band_value fb stft M w b) as [ov|] eqn:Ev;
      [|exfalso; apply (Hval w b); [lia | lia | exact Ev]].
    cbn [bind].
    assert (Hd : put_cell o2 w b ov <> None).
    { apply put_cell_defined. exists row2. split; [assumption|]. intros _. lia. }
    destruct (put_cell o2 w b ov) as [o3|] eqn:Ep; [|contradiction].
    exists o3. split; [reflexivity|].
    destruct ov as [v|].
    + apply put_cell_some in Ep. apply Ep.
    + rewrite put_cell_none in Ep. destruct (nth_error o2 w); [|discriminate].
      injection Ep as <-. reflexivity.
  - exists out'. rewrite E. reflexivity.
Qed.

Lemma applyMelFB_in_bounds_witness :
  exists out', applyMelFB fb64 [[0; 0; 0]] ones32 = Some (fb64, out').
Proof.
  destruct fb64_edges as (Hl & _ & Hh).
  apply (applyMelFB_in_bounds 64 2 100 2000 fb64 _ ones32 (63 / 4) 4 MelFb_new_64).
  - rewrite Hh. reflexivity.
  - rewrite Hl. reflexivity.
  - rewrite Hh, Hl, ceil_63_4, (floor_IZR 4). simpl (fbSize fb64).
    intros [|[|b]] hi lo Ehi Elo; cbn [nth_error] in Ehi, Elo.
    + injection Ehi as <-. injection Elo as <-.
      rewrite (ceil_IZR 9), (floor_IZR 1). lia.
    + injection Ehi as <-. injection Elo as <-.
      rewrite ceil_63_4, (floor_IZR 4). lia.
    + destruct b; discriminate.
  - intros w Hw. simpl in Hw. assert (w = 0%nat) by lia. subst w.
    eexists. split; [reflexivity|]. unfold len. rewrite repeat_length.
    simpl (fbSize fb64). lia.
  - intros w Hw. simpl in Hw. assert (w = 0%nat) by lia. subst w.
    eexists. split; [reflexivity|]. simpl. lia.
Defined.
